(** * search-api: the orchestrator, the cache and the HTTP layer

    A shallow embedding of [search/search.py], [cache/redis.py] and [main.py].

    Python objects that the code mutates in place ([SearchResult]: [r.index = i],
    [r.content = ...]) live in a heap and are passed around by reference; the
    calls a run makes to its collaborators (search providers, the enrichment
    barrier) are written to an event log. *)

From Stdlib Require Import ZArith Lia Ascii String.
From stdpp Require Import base option list strings pretty gmap.

Set Default Proof Using "Type".

(** ** Exceptions and outcomes *)

(** The subclasses of Python's [Exception] the code raises or meets. Every one of
    them is caught by [except Exception]. *)
Inductive PyException : Type :=
  | ValueError (msg : string)
  | TypeError (msg : string)
  | IndexError (msg : string)
  | AttributeError (msg : string)
  | ValidationError (msg : string)
  | ResponseError (msg : string)
  | HTTPException (status_code : Z) (detail : string)
  | OtherException (msg : string).

(** What a call yields: a value, or a raised exception. *)
Inductive Outcome (A : Type) : Type :=
  | Return (a : A)
  | Raise (e : PyException).
Arguments Return {A} a.
Arguments Raise {A} e.

Definition returns {A} (o : Outcome A) : bool :=
  match o with Return _ => true | Raise _ => false end.

(** ** search/fetcher.py and search/llm.py: the collaborators *)

Record FetchedContent : Type := mkFetchedContent {
  url : string;
  raw_content : string;
  clean_text : string;
  status_code : Z;
  error : string
}.

(** [ContentFetcher.fetch(url)]. *)
Definition ContentFetcher : Type := string → Outcome FetchedContent.

Record Message : Type := mkMessage { role : string; text : string }.

(** The reply of a chat completion: [choices[i].message.content] for each [i]. *)
Record ChatCompletion : Type := mkChatCompletion { choices : list (option string) }.

(** [LLMClient.completion(messages)]. *)
Definition LLMClient : Type := list Message → Outcome ChatCompletion.

(** ** search/search.py *)

Module Search.

Record SearchResult : Type := mkSearchResult {
  title : string;
  link : string;
  snippet : string;
  content : option string;
  source_engine : string;
  index : option Z
}.

Definition set_index (i : option Z) (r : SearchResult) : SearchResult :=
  {| title := title r; link := link r; snippet := snippet r;
     content := content r; source_engine := source_engine r; index := i |}.

Definition set_content (c : option string) (r : SearchResult) : SearchResult :=
  {| title := title r; link := link r; snippet := snippet r;
     content := c; source_engine := source_engine r; index := index r |}.

Record SearchEngineConfig : Type := mkSearchEngineConfig {
  api_key : string;
  endpoint : string;
  params : list (string * option string)
}.

(** The keyword arguments [search] is called with and hands on to every engine. *)
Record Kwargs : Type := mkKwargs {
  kw_max_results : option Z;
  kw_fetch_content : option bool
}.

(** [kwargs.get("fetch_content", False)] *)
Definition get_fetch_content (kw : Kwargs) : bool := default false (kw_fetch_content kw).

(** An engine's [async def search(self, query, **kwargs)]: the adapters build one
    new [SearchResult] for every item of the provider's answer, or raise. *)
Abbreviation SearchEngine := (string → Kwargs → Outcome (list SearchResult)).

(** A reference to a [SearchResult] object: its position in the heap. *)
Abbreviation ref := nat.

(** The value bound to the variable [results]: a list of objects or, where the
    [async] method was called without [await], the coroutine that was never run. *)
Inductive Results : Type :=
  | RList (rs : list ref)
  | RCoroutine (engine_name : string) (query : string) (kw : Kwargs).

Inductive Event : Type :=
  | EvSearch (engine_name : string) (query : string) (kw : Kwargs)
      (** [await engine.search(query, **kwargs)] *)
  | EvGather (links : list string)
      (** one [await asyncio.gather] over the tasks, with the link of every task *).

(** The state of one [OmniSearchService]: its registry [self.engines], a dict in
    insertion order, and the [SearchResult] objects alive. *)
Record St : Type := mkSt {
  engines : list (string * SearchEngine);
  heap : list SearchResult
}.

Definition with_heap (h : list SearchResult) (st : St) : St :=
  {| engines := engines st; heap := h |}.

(** *** The monad of the methods: state, exceptions, and the log of events *)

Definition M (A : Type) : Type := St → Outcome A * St * list Event.

#[export] Instance M_ret : MRet M := λ A a st, (Return a, st, []).
#[export] Instance M_bind : MBind M := λ A B f m st,
  match m st with
  | (Return a, st', evs) =>
      match f a st' with (o, st'', evs') => (o, st'', evs ++ evs') end
  | (Raise e, st', evs) => (Raise e, st', evs)
  end.

Definition raise {A} (e : PyException) : M A := λ st, (Raise e, st, []).

(** [try: body except Exception as e: handler e] *)
Definition try_except {A} (body : M A) (handler : PyException → M A) : M A := λ st,
  match body st with
  | (Return a, st', evs) => (Return a, st', evs)
  | (Raise e, st', evs) =>
      match handler e st' with (o, st'', evs') => (o, st'', evs ++ evs') end
  end.

Definition get_state : M St := λ st, (Return st, st, []).
Definition modify_heap (f : list SearchResult → list SearchResult) : M unit :=
  λ st, (Return (), with_heap (f (heap st)) st, []).
Definition emit (ev : Event) : M unit := λ st, (Return (), st, [ev]).

(** [await] of a collaborator's call. *)
Definition await {A} (o : Outcome A) : M A := λ st, (o, st, []).

(** The objects of a provider's answer enter the heap. *)
Definition alloc (l : list SearchResult) : M (list ref) := λ st,
  (Return (seq (length (heap st)) (length l)), with_heap (heap st ++ l) st, []).

(** [r.attr]: a reference always denotes a live object. *)
Definition getattr {A} (r : ref) (attr : SearchResult → A) : M A := λ st,
  match heap st !! r with
  | Some o => (Return (attr o), st, [])
  | None => (Raise (AttributeError "no such object"), st, [])
  end.

(** The objects a list of references denotes, as the caller reads them. *)
Definition deref (h : list SearchResult) (rs : list ref) : list (option SearchResult) :=
  (h !!.) <$> rs.

(** The three parts of a run. *)
Definition outcome {A} (run : Outcome A * St * list Event) : Outcome A := run.1.1.
Definition final {A} (run : Outcome A * St * list Event) : St := run.1.2.
Definition events {A} (run : Outcome A * St * list Event) : list Event := run.2.

(** *** Python dicts in insertion order *)

(** [d[k] = v]: an existing key keeps its place, a new key goes last. *)
Fixpoint dict_set {V} (k : string) (v : V) (d : list (string * V)) : list (string * V) :=
  match d with
  | [] => [(k, v)]
  | (k', v') :: d' => if decide (k = k') then (k, v) :: d' else (k', v') :: dict_set k v d'
  end.

Fixpoint dict_get {V} (k : string) (d : list (string * V)) : option V :=
  match d with
  | [] => None
  | (k', v) :: d' => if decide (k = k') then Some v else dict_get k d'
  end.

(** *** OmniSearchService *)

Section OmniSearchService.

(** [self.fetcher] and [self.llm_cli], set once by [__init__]. *)
Variable fetcher : ContentFetcher.
Variable llm_cli : LLMClient.

Definition init : St := {| engines := []; heap := [] |}.

Definition add_engine (name : string) (engine : SearchEngine) (st : St) : St :=
  {| engines := dict_set name engine (engines st); heap := heap st |}.

Definition system_prompt : string :=
  "你是一个 HTML 数据清理员，请整理我提供的 HTML 文本中的有效信息，如果没有则返回 None".

(** [l[0]] *)
Definition first_item {A} (l : list A) : M A :=
  match l with
  | x :: _ => mret x
  | [] => raise (IndexError "list index out of range")
  end.

Definition _fetch_content_by_search_result (r : ref) : M ref :=
  try_except
    (r_link ← getattr r link;
     raw_content ← await (fetcher r_link);
     let content := clean_text raw_content in
     c ← await (llm_cli [ mkMessage "system" system_prompt;
                          mkMessage "user" content ]);
     reply ← first_item (choices c);
     modify_heap (alter (set_content reply) r);;
     mret r)
    (λ e, mret r).

(** [await asyncio.gather] over the tasks: the results come back in the order of the
    tasks. A task writes the [content] of its own object only, and what it
    writes depends on that object's link alone, so the tasks are run here one
    after the other. *)
Fixpoint gather (rs : list ref) : M (list ref) :=
  match rs with
  | [] => mret []
  | r :: rs' =>
      r' ← _fetch_content_by_search_result r;
      rs'' ← gather rs';
      mret (r' :: rs'')
  end.

Definition links_of (rs : list ref) : M (list string) := λ st,
  (Return (omap (λ r, link <$> heap st !! r) rs), st, []).

Definition _fetch_content (results : Results) : M (list ref) :=
  try_except
    (match results with
     | RList rs =>
         links ← links_of rs;
         emit (EvGather links);;
         gather rs
     | RCoroutine _ _ _ => raise (TypeError "'coroutine' object is not iterable")
     end)
    (λ e, mret []).

(** [for i, r in enumerate(results): r.index = i] *)
Fixpoint assign_index (i : Z) (rs : list ref) (h : list SearchResult) : list SearchResult :=
  match rs with
  | [] => h
  | r :: rs' => assign_index (i + 1) rs' (alter (set_index (Some i)) r h)
  end.

(** The body of the loop of [search] for one item of [self.engines.items()]. *)
Definition search_step (query : string) (kw : Kwargs)
    (all_results : list ref) (item : string * SearchEngine) : M (list ref) :=
  let fetch_content := get_fetch_content kw in
  try_except
    (emit (EvSearch item.1 query kw);;
     answer ← await (item.2 query kw);
     results ← alloc answer;
     modify_heap (assign_index 0 results);;
     results ← (if fetch_content then _fetch_content (RList results) else mret results);
     mret (all_results ++ results))
    (λ e, mret all_results).

Fixpoint search_loop (query : string) (kw : Kwargs)
    (all_results : list ref) (items : list (string * SearchEngine)) : M (list ref) :=
  match items with
  | [] => mret all_results
  | item :: items' =>
      all_results' ← search_step query kw all_results item;
      search_loop query kw all_results' items'
  end.

Definition search (query : string) (kw : Kwargs) : M (list ref) :=
  st ← get_state;
  search_loop query kw [] (engines st).

Definition search_by_engine (engine_name query : string) (kw : Kwargs) : M Results :=
  st ← get_state;
  match dict_get engine_name (engines st) with
  | None => raise (ValueError ("Engine " +:+ engine_name +:+ " not configured"))
  | Some engine =>
      let fetch_content := get_fetch_content kw in
      let results := RCoroutine engine_name query kw in
      if fetch_content
      then rs ← _fetch_content results; mret (RList rs)
      else mret results
  end.

(** *** What a run amounts to

    The functions below are not in the source: they say, in closed form, what the
    methods above compute, and the theorems relate the two. *)

(** What the task of an object with this link obtains: the reply it stores as
    [content], or the exception that sends it to its [except] branch. *)
Definition enrichment (r_link : string) : Outcome (option string) :=
  match fetcher r_link with
  | Raise e => Raise e
  | Return raw_content =>
      match llm_cli [ mkMessage "system" system_prompt;
                      mkMessage "user" (clean_text raw_content) ] with
      | Raise e => Raise e
      | Return c =>
          match choices c with
          | reply :: _ => Return reply
          | [] => Raise (IndexError "list index out of range")
          end
      end
  end.

(** The object a task leaves behind. *)
Definition enrich (o : SearchResult) : SearchResult :=
  match enrichment (link o) with
  | Return reply => set_content reply o
  | Raise _ => o
  end.

Definition enrich_all (rs : list ref) (h : list SearchResult) : list SearchResult :=
  foldl (λ h r, alter enrich r h) h rs.

(** An answer with its objects numbered in the order the engine gave them. *)
Definition numbered (l : list SearchResult) : list SearchResult :=
  imap (λ i, set_index (Some (Z.of_nat i))) l.

(** The objects one engine contributes to a run of [search]. *)
Definition contribution (query : string) (kw : Kwargs) (item : string * SearchEngine)
    : list SearchResult :=
  match item.2 query kw with
  | Return l => if get_fetch_content kw then enrich <$> numbered l else numbered l
  | Raise _ => []
  end.

(** The numbered answer of an engine, empty when its search raises. *)
Definition numbered_answer (query : string) (kw : Kwargs) (item : string * SearchEngine)
    : list SearchResult :=
  match item.2 query kw with
  | Return l => numbered l
  | Raise _ => []
  end.

(** The events of one turn of the loop of [search]. *)
Definition step_events (query : string) (kw : Kwargs) (item : string * SearchEngine)
    : list Event :=
  EvSearch item.1 query kw ::
  match item.2 query kw with
  | Return l => if get_fetch_content kw then [EvGather (link <$> l)] else []
  | Raise _ => []
  end.

(** *** The orchestrator as section 4.1 of the specification words it

    "After all engines complete, if enrichment is requested, every result across
    all engines is enriched before the combined list is returned": the loop only
    queries and numbers, and one batch of tasks follows it. *)
Definition search_step_after_all (query : string) (kw : Kwargs)
    (all_results : list ref) (item : string * SearchEngine) : M (list ref) :=
  try_except
    (emit (EvSearch item.1 query kw);;
     answer ← await (item.2 query kw);
     results ← alloc answer;
     modify_heap (assign_index 0 results);;
     mret (all_results ++ results))
    (λ e, mret all_results).

Fixpoint search_loop_after_all (query : string) (kw : Kwargs)
    (all_results : list ref) (items : list (string * SearchEngine)) : M (list ref) :=
  match items with
  | [] => mret all_results
  | item :: items' =>
      all_results' ← search_step_after_all query kw all_results item;
      search_loop_after_all query kw all_results' items'
  end.

Definition search_after_all (query : string) (kw : Kwargs) : M (list ref) :=
  st ← get_state;
  all_results ← search_loop_after_all query kw [] (engines st);
  if get_fetch_content kw then _fetch_content (RList all_results) else mret all_results.

End OmniSearchService.

(** Every search comes before a single barrier, the last event of the run. *)
Fixpoint searches_then_one_barrier (evs : list Event) : bool :=
  match evs with
  | [] => false
  | EvSearch _ _ _ :: evs' => searches_then_one_barrier evs'
  | EvGather _ :: evs' => match evs' with [] => true | _ :: _ => false end
  end.

(** Two objects that differ in [content] at most. *)
Definition same_but_content (o o' : SearchResult) : Prop :=
  title o' = title o ∧ link o' = link o ∧ snippet o' = snippet o ∧
  source_engine o' = source_engine o ∧ index o' = index o.

End Search.

(** ** cache/redis.py and main.py *)

Module Main.
Import Search.

(** *** JSON and the cache *)

#[warnings="-register-all"]
Inductive Json : Type :=
  | JNull
  | JBool (b : bool)
  | JInt (z : Z)
  | JStr (s : string)
  | JArr (items : list Json)
  | JObj (fields : list (string * Json)).

(** [result.model_dump()] *)
Definition model_dump (r : SearchResult) : Json :=
  JObj [ ("title", JStr (title r));
         ("link", JStr (link r));
         ("snippet", JStr (snippet r));
         ("content", from_option JStr JNull (content r));
         ("source_engine", JStr (source_engine r));
         ("index", from_option JInt JNull (index r)) ].

(** The Redis server behind [RedisClient]: every key holds a value and the time,
    in milliseconds, at which it expires. The value is JSON text, written by
    [json.dumps] and read by [json.loads]; it is kept here as the JSON value the
    text denotes, which is never an empty text. *)
Record Redis : Type := mkRedis { entries : gmap string (Json * Z) }.

(** [RedisClient.get], at time [now]. *)
Definition redis_get (key : string) (now : Z) (r : Redis) : option Json :=
  match entries r !! key with
  | Some (value, expires) => if (now <? expires)%Z then Some value else None
  | None => None
  end.

(** [RedisClient.setex], at time [now]; Redis refuses a time to live that is not
    positive. *)
Definition redis_setex (key : string) (ttl : Z) (value : Json) (now : Z) (r : Redis)
    : Outcome Redis :=
  if (0 <? ttl)%Z
  then Return (mkRedis (<[key := (value, (now + 1000 * ttl)%Z)]> (entries r)))
  else Raise (ResponseError "invalid expire time in 'setex' command").

(** *** What the process is given *)

(** [os.environ] *)
Record Environ : Type := mkEnviron {
  API_KEY : option string;
  GOOGLE_API_KEY : option string;
  GOOGLE_CX : option string;
  SEARCH_TTL : option string;
  MODEL_NAME : option string
}.

(** The library functions and the collaborators of [main.py]. *)
Record World : Type := mkWorld {
  md5_hexdigest : string → string;
    (** [hashlib.md5(s.encode()).hexdigest()] *)
  str_strip : string → string;
    (** [s.strip()] *)
  repr_list : list string → string;
    (** [str] of a list of strings *)
  int_of_str : string → Outcome Z;
    (** [int(s)] *)
  GoogleSearch : SearchEngineConfig → SearchEngine;
  DuckDuckGoSearch : SearchEngineConfig → SearchEngine;
  RequestsHtmlFetcher : ContentFetcher;
  GPTClient : string → LLMClient;
  not_authenticated_status : Z;
    (** the status of the [HTTPException] that FastAPI's [HTTPBearer] raises for
        a request it does not accept: 403 or 401, depending on the release *)
  lax_int : Json → Outcome Z
    (** what pydantic makes of a bool or of a string that is given for a field
        declared [int] *)
}.

(** The Redis server and the calls made to the collaborators so far. *)
Record Server : Type := mkServer {
  redis : Redis;
  calls : list Event
}.

(** *** The endpoint *)

Record SearchRequest : Type := mkSearchRequest {
  query : string;
  max_results : Z;
  fetch_content : bool;
  search_engines : list string
}.

(** The [data] of a response: the objects [search] returned or what
    [json.loads] made of the cached text. *)
Inductive Data : Type :=
  | Objects (results : list SearchResult)
  | Loaded (cached : Json).

(** The dict that the endpoint returns. *)
Record Envelope : Type := mkEnvelope {
  data : Data;
  code : Z;
  message : string
}.

(** The JSON of [data]. *)
Definition payload (d : Data) : Json :=
  match d with
  | Objects results => JArr (model_dump <$> results)
  | Loaded cached => cached
  end.

(** [str(b)] *)
Definition str_bool (b : bool) : string := if b then "True" else "False".

Definition cache_key (w : World) (req : SearchRequest) : string :=
  let key := str_strip w (query req) +:+ pretty (max_results req)
             +:+ str_bool (fetch_content req) +:+ repr_list w (search_engines req) in
  "search_api.search." +:+ md5_hexdigest w key.

(** The body of the loop over [req.search_engines]. [SearchEngineConfig] wants a
    string for [api_key] and does not validate without one. *)
Definition register (w : World) (env : Environ) (o : St) (engine : string) : Outcome St :=
  if decide (engine = "google") then
    match GOOGLE_API_KEY env with
    | Some key =>
        let google_config := mkSearchEngineConfig key "" [("cx", GOOGLE_CX env)] in
        Return (add_engine "google" (GoogleSearch w google_config) o)
    | None => Raise (ValidationError "api_key: Input should be a valid string")
    end
  else if decide (engine = "duckduckgo") then
    let duckduckgo_config := mkSearchEngineConfig "" "" [("region", Some "cn-zh")] in
    Return (add_engine "duckduckgo" (DuckDuckGoSearch w duckduckgo_config) o)
  else Return o.

(** The names for which the loop registers an engine. *)
Definition recognised (name : string) : Prop := name = "google" ∨ name = "duckduckgo".

#[export] Instance recognised_dec name : Decision (recognised name).
Proof. unfold recognised. apply _. Defined.

Fixpoint register_all (w : World) (env : Environ) (o : St) (names : list string)
    : Outcome St :=
  match names with
  | [] => Return o
  | engine :: names' =>
      match register w env o engine with
      | Return o' => register_all w env o' names'
      | Raise e => Raise e
      end
  end.

(** [int(os.environ.get("SEARCH_TTL", 30))] *)
Definition search_ttl (w : World) (env : Environ) : Outcome Z :=
  match SEARCH_TTL env with
  | Some s => int_of_str w s
  | None => Return 30%Z
  end.

(** [POST /v1/search]: the cache is read at [t_get] and, on a miss with results,
    written at [t_set]. *)
Definition search (w : World) (env : Environ) (req : SearchRequest) (t_get t_set : Z)
    (srv : Server) : Outcome Envelope * Server :=
  let key := cache_key w req in
  match redis_get key t_get (redis srv) with
  | Some cached => (Return (mkEnvelope (Loaded cached) 0 "success"), srv)
  | None =>
      let fetcher := RequestsHtmlFetcher w in
      let llm_cli := GPTClient w (default "gpt-4o-mini" (MODEL_NAME env)) in
      match register_all w env init (search_engines req) with
      | Raise e => (Raise e, srv)
      | Return o =>
          let kw := mkKwargs (Some (max_results req)) (Some (fetch_content req)) in
          let run := Search.search fetcher llm_cli (str_strip w (query req)) kw o in
          let srv := mkServer (redis srv) (calls srv ++ events run) in
          match outcome run with
          | Raise e => (Raise e, srv)
          | Return rs =>
              let results := omap (heap (final run) !!.) rs in
              if (0 <? length rs)%nat then
                let json_data := JArr (model_dump <$> results) in
                match search_ttl w env with
                | Raise e => (Raise e, srv)
                | Return ttl =>
                    match redis_setex key ttl json_data t_set (redis srv) with
                    | Raise e => (Raise e, srv)
                    | Return r' =>
                        (Return (mkEnvelope (Objects results) 0 "success"),
                         mkServer r' (calls srv))
                    end
                end
              else (Return (mkEnvelope (Objects results) 0 "success"), srv)
          end
      end
  end.

(** *** Authentication and routing *)

Record HTTPAuthorizationCredentials : Type := mkCredentials {
  scheme : string;
  credentials : string
}.

(** [s.partition(" ")], without the separator. *)
Fixpoint partition_space (s : string) : string * string :=
  match s with
  | EmptyString => (EmptyString, EmptyString)
  | String c s' =>
      if decide (c = " "%char) then (EmptyString, s')
      else let '(a, b) := partition_space s' in (String c a, b)
  end.

Definition lower_ascii (c : ascii) : ascii :=
  let n := nat_of_ascii c in
  if (65 <=? n)%nat && (n <=? 90)%nat then ascii_of_nat (n + 32) else c.

(** [s.lower()], on the letters A to Z. *)
Fixpoint lower (s : string) : string :=
  match s with
  | EmptyString => EmptyString
  | String c s' => String (lower_ascii c) (lower s')
  end.

(** [security = HTTPBearer()], called by FastAPI with the request before the
    dependency [auth] that asks for it: the [Authorization] header is split at
    its first space; a request without the header, or with an empty scheme or
    empty credentials, or with another scheme than bearer, is answered with an
    [HTTPException] ([auto_error] is left at its default). *)
Definition HTTPBearer (w : World) (authorization : option string)
    : Outcome HTTPAuthorizationCredentials :=
  match authorization with
  | None => Raise (HTTPException (not_authenticated_status w) "Not authenticated")
  | Some header =>
      let '(sch, cred) := partition_space header in
      if decide (header = "" ∨ sch = "" ∨ cred = "")
      then Raise (HTTPException (not_authenticated_status w) "Not authenticated")
      else if decide (lower sch = "bearer")
      then Return (mkCredentials sch cred)
      else Raise (HTTPException (not_authenticated_status w)
                    "Invalid authentication credentials")
  end.

Definition auth (env : Environ) (path : string) (c : HTTPAuthorizationCredentials)
    : Outcome unit :=
  let white_list := ["/"; "/v1/health"] in
  if decide (path ∈ white_list) then Return ()
  else if decide (default "" (API_KEY env) = "") then Return ()
  else if decide (scheme c ≠ "Bearer" ∨ Some (credentials c) ≠ API_KEY env)
  then Raise (HTTPException 403 "Forbidden")
  else Return ().

Inductive Method : Type := GET | HEAD | POST | PUT | DELETE.

Record Request : Type := mkRequest {
  method : Method;
  path : string;
  authorization : option string;
  body : option SearchRequest
}.

(** *** [response_model=SearchResponse]

    FastAPI validates the dict that the endpoint returns against
    [SearchResponse] and serialises what the validation gives. *)

(** A field declared [str], which has no default. *)
Definition str_field (name : string) (fields : list (string * Json)) : Outcome string :=
  match dict_get name fields with
  | Some (JStr s) => Return s
  | Some _ => Raise (ValidationError (name +:+ ": Input should be a valid string"))
  | None => Raise (ValidationError (name +:+ ": Field required"))
  end.

(** [content: str = None]: the default stands for a key that is absent and is
    not validated; a value that is given has to be a string, and [None] is not. *)
Definition content_field (fields : list (string * Json)) : Outcome (option string) :=
  match dict_get "content" fields with
  | None => Return None
  | Some (JStr s) => Return (Some s)
  | Some _ => Raise (ValidationError "content: Input should be a valid string")
  end.

(** [index: int = None] *)
Definition index_field (w : World) (fields : list (string * Json)) : Outcome (option Z) :=
  match dict_get "index" fields with
  | None => Return None
  | Some (JInt z) => Return (Some z)
  | Some (JBool b) =>
      match lax_int w (JBool b) with Return z => Return (Some z) | Raise e => Raise e end
  | Some (JStr s) =>
      match lax_int w (JStr s) with Return z => Return (Some z) | Raise e => Raise e end
  | Some _ => Raise (ValidationError "index: Input should be a valid integer")
  end.

(** An item of [data] that [json.loads] made, validated as a [SearchResult]:
    keys that the model does not have are ignored. *)
Definition validate_result (w : World) (item : Json) : Outcome SearchResult :=
  match item with
  | JObj fields =>
      match str_field "title" fields, str_field "link" fields, str_field "snippet" fields,
            content_field fields, str_field "source_engine" fields, index_field w fields with
      | Return t, Return l, Return s, Return c, Return source, Return i =>
          Return (mkSearchResult t l s c source i)
      | _, _, _, _, _, _ => Raise (ValidationError "response: SearchResult")
      end
  | _ => Raise (ValidationError "response: Input should be a valid dictionary")
  end.

Fixpoint validate_results (w : World) (items : list Json) : Outcome (list SearchResult) :=
  match items with
  | [] => Return []
  | item :: items' =>
      match validate_result w item, validate_results w items' with
      | Return r, Return rs => Return (r :: rs)
      | _, _ => Raise (ValidationError "response: data")
      end
  end.

(** The [data] of the dict, validated as [list[SearchResult]]: an object of
    [SearchResult] is taken as it is, without a look at its fields; what
    [json.loads] made has to be a list and is validated item by item. *)
Definition validate_data (w : World) (d : Data) : Outcome (list SearchResult) :=
  match d with
  | Objects results => Return results
  | Loaded (JArr items) => validate_results w items
  | Loaded _ => Raise (ValidationError "response: data: Input should be a valid list")
  end.

(** The body of the response: the validated [SearchResponse], serialised with
    all its fields. *)
Definition response_body (results : list SearchResult) (code : Z) (message : string) : Json :=
  JObj [ ("data", JArr (model_dump <$> results));
         ("code", JInt code);
         ("message", JStr message) ].

(** [Success] is a response with the status 200 and the JSON of its body. *)
Inductive Response : Type :=
  | Text (status : Z) (content : string)
  | Empty (status : Z)
  | Success (body : Json)
  | Failure (status : Z) (detail : string).

(** What FastAPI answers when a dependency or the endpoint raises. *)
Definition error_response (e : PyException) : Response :=
  match e with
  | HTTPException status detail => Failure status detail
  | _ => Failure 500 "Internal Server Error"
  end.

(** What FastAPI answers when the endpoint has returned: a dict that does not
    validate against the [response_model] makes it raise
    [ResponseValidationError], which no handler catches. *)
Definition respond (w : World) (envelope : Envelope) : Response :=
  match validate_data w (data envelope) with
  | Return results => Success (response_body results (code envelope) (message envelope))
  | Raise _ => Failure 500 "Internal Server Error"
  end.

(** The application: [index], [health_check] and [search] behind their routes;
    only [search] depends on [auth]. Paths are matched as they are written; the
    redirection of a path with a trailing slash and the header that the timing
    middleware adds to every response are left out. *)
Definition app (w : World) (env : Environ) (req : Request) (t_get t_set : Z)
    (srv : Server) : Response * Server :=
  if decide (path req = "/") then
    match method req with
    | GET => (Text 200 ("Hello World" +:+ String "010" EmptyString), srv)
    | _ => (Failure 405 "Method Not Allowed", srv)
    end
  else if decide (path req = "/v1/health") then
    match method req with
    | HEAD => (Empty 200, srv)
    | _ => (Failure 405 "Method Not Allowed", srv)
    end
  else if decide (path req = "/v1/search") then
    match method req with
    | POST =>
        match HTTPBearer w (authorization req) with
        | Raise e => (error_response e, srv)
        | Return c =>
            match auth env (path req) c with
            | Raise e => (error_response e, srv)
            | Return _ =>
                match body req with
                | None => (Failure 422 "Unprocessable Entity", srv)
                | Some search_request =>
                    match search w env search_request t_get t_set srv with
                    | (Return envelope, srv') => (respond w envelope, srv')
                    | (Raise e, srv') => (error_response e, srv')
                    end
                end
            end
        end
    | _ => (Failure 405 "Method Not Allowed", srv)
    end
  else (Failure 404 "Not Found", srv).

End Main.


(** * Concrete collaborators, for the examples *)

Module Fixture.
Import Search.

Definition fetcher : ContentFetcher := λ u,
  if decide (u = "https://down.example/")
  then Raise (OtherException "ConnectionError")
  else Return (mkFetchedContent u ("<p>" +:+ u +:+ "</p>") u 200 "").

Definition llm_cli : LLMClient := λ messages,
  Return (mkChatCompletion [Some ("summary of " +:+ default "" (text <$> last messages))]).

Definition hit (t l source : string) : SearchResult :=
  mkSearchResult t l "" None source None.

Definition duckduckgo : SearchEngine := λ query kw,
  Return [ hit "a" "https://a.example/" "DuckDuckGo"; hit "b" "https://b.example/" "DuckDuckGo" ].

Definition google : SearchEngine := λ query kw,
  Return [ hit "c" "https://c.example/" "Google" ].

Definition bing : SearchEngine := λ query kw,
  Raise (OtherException "401 Client Error").

Definition plain : Kwargs := mkKwargs (Some 2%Z) (Some false).
Definition enriched : Kwargs := mkKwargs (Some 2%Z) (Some true).

Definition two_engines : St :=
  add_engine "google" google (add_engine "duckduckgo" duckduckgo init).

Definition three_engines : St :=
  add_engine "google" google (add_engine "bing" bing (add_engine "duckduckgo" duckduckgo init)).

(** A provider that finds nothing for the query [nothing]. *)
Definition DuckDuckGoSearch (config : SearchEngineConfig) : SearchEngine := λ query kw,
  if decide (query = "nothing") then Return [] else duckduckgo query kw.

Definition GoogleSearch (config : SearchEngineConfig) : SearchEngine := google.

(** The digest, [strip], [str], [int] and the conversion to [int] of the
    validation are stand-ins: no example depends on what they compute. *)
Definition world : Main.World :=
  Main.mkWorld
    (λ s, s)
    (λ s, s)
    (λ names, "[" +:+ foldr (λ name s, "'" +:+ name +:+ "', " +:+ s) "]" names)
    (λ s, if decide (s = "60") then Return 60%Z else Raise (ValueError "invalid literal"))
    GoogleSearch DuckDuckGoSearch fetcher (λ model_name, llm_cli) 403
    (λ value, Raise (ValidationError "Input should be a valid integer")).

Definition environ : Main.Environ :=
  Main.mkEnviron None (Some "google-key") (Some "cx") None None.

Definition idle : Main.Server := Main.mkServer (Main.mkRedis ∅) [].

End Fixture.


(** * Reading the log *)

(** The names of the engines whose [search] was awaited, in the order of the log. *)
Definition queried (evs : list Search.Event) : list string :=
  omap (λ ev, match ev with
              | Search.EvSearch engine_name _ _ => Some engine_name
              | Search.EvGather _ => None
              end) evs.

(** * The answer of the route of [search] *)

(** What [POST /v1/search] answers once its dependencies have let the request
    through. *)
Definition endpoint_response (w : Main.World) (env : Main.Environ)
    (search_request : Main.SearchRequest) (t_get t_set : Z) (srv : Main.Server)
    : Main.Response * Main.Server :=
  match Main.search w env search_request t_get t_set srv with
  | (Return envelope, srv') => (Main.respond w envelope, srv')
  | (Raise e, srv') => (Main.error_response e, srv')
  end.

(** * More concrete inputs *)

Module Sample.

(** An environment with an [API_KEY]. *)
Definition locked : Main.Environ :=
  Main.mkEnviron (Some "secret") (Some "google-key") (Some "cx") None None.

(** An environment without [GOOGLE_API_KEY]. *)
Definition no_google_key : Main.Environ :=
  Main.mkEnviron None None None None None.

(** An environment whose [SEARCH_TTL] is not a number. *)
Definition bad_ttl : Main.Environ :=
  Main.mkEnviron None (Some "google-key") (Some "cx") (Some "soon") None.

Definition google_request : Main.SearchRequest :=
  Main.mkSearchRequest "rocq" 10 false ["google"].

Definition both_request : Main.SearchRequest :=
  Main.mkSearchRequest "rocq" 10 false ["duckduckgo"; "google"].

End Sample.

(** * Python's [str] methods

    A [str] is held as the bytes of its UTF-8 encoding. *)

Module Text.

Definition utf8 (bytes : list nat) : list ascii := ascii_of_nat <$> bytes.

(** The characters that [str.strip] removes and [str.isspace] accepts: U+0009 to
    U+000D, U+001C to U+0020, U+0085, U+00A0, U+1680, U+2000 to U+200A, U+2028,
    U+2029, U+202F, U+205F and U+3000. *)
Definition whitespace : list (list ascii) :=
  utf8 <$> [ [9]; [10]; [11]; [12]; [13]; [28]; [29]; [30]; [31]; [32];
             [194; 133]; [194; 160]; [225; 154; 128];
             [226; 128; 128]; [226; 128; 129]; [226; 128; 130]; [226; 128; 131];
             [226; 128; 132]; [226; 128; 133]; [226; 128; 134]; [226; 128; 135];
             [226; 128; 136]; [226; 128; 137]; [226; 128; 138];
             [226; 128; 168]; [226; 128; 169]; [226; 128; 175];
             [226; 129; 159]; [227; 128; 128] ].

(** [s] without its prefix [p], when it has it. *)
Fixpoint strip_prefix (p s : list ascii) : option (list ascii) :=
  match p, s with
  | [], _ => Some s
  | c :: p', d :: s' => if decide (c = d) then strip_prefix p' s' else None
  | _ :: _, [] => None
  end.

(** [s] without one of the patterns at its start, when it starts with one. *)
Fixpoint drop_one (patterns : list (list ascii)) (s : list ascii) : option (list ascii) :=
  match patterns with
  | [] => None
  | p :: patterns' =>
      match strip_prefix p s with
      | Some rest => Some rest
      | None => drop_one patterns' s
      end
  end.

(** Patterns are dropped from the start for as long as there is one; a pattern
    takes a byte at least, so the length of the text is fuel enough. *)
Fixpoint drop_all (patterns : list (list ascii)) (fuel : nat) (s : list ascii) : list ascii :=
  match fuel with
  | 0 => s
  | S fuel' =>
      match drop_one patterns s with
      | Some rest => drop_all patterns fuel' rest
      | None => s
      end
  end.

Definition lstrip_bytes (s : list ascii) : list ascii :=
  drop_all whitespace (length s) s.

Definition rstrip_bytes (s : list ascii) : list ascii :=
  reverse (drop_all (reverse <$> whitespace) (length s) (reverse s)).

Definition strip_bytes (s : list ascii) : list ascii := rstrip_bytes (lstrip_bytes s).

(** [s.strip()] *)
Definition strip (s : string) : string :=
  string_of_list_ascii (strip_bytes (list_ascii_of_string s)).

Definition newline : ascii := ascii_of_nat 10.

(** [s.split('\n')] *)
Fixpoint split_bytes (s : list ascii) : list (list ascii) :=
  match s with
  | [] => [[]]
  | c :: s' =>
      if decide (c = newline) then [] :: split_bytes s'
      else match split_bytes s' with
           | line :: lines => (c :: line) :: lines
           | [] => [[c]]
           end
  end.

(** ['\n'.join(lines)] *)
Fixpoint join_bytes (lines : list (list ascii)) : list ascii :=
  match lines with
  | [] => []
  | [line] => line
  | line :: lines' => line ++ newline :: join_bytes lines'
  end.

(** [[line.strip() for line in text.split('\n') if line.strip()]] *)
Definition stripped_lines (text : list ascii) : list (list ascii) :=
  filter (λ line, line ≠ []) (strip_bytes <$> split_bytes text).

(** ['\n'.join([line.strip() for line in text.split('\n') if line.strip()])] *)
Definition clean_lines (text : string) : string :=
  string_of_list_ascii (join_bytes (stripped_lines (list_ascii_of_string text))).

End Text.

(** * search/fetcher.py *)

(** [str(e)] *)
Definition exception_str (e : PyException) : string :=
  match e with
  | ValueError msg | TypeError msg | IndexError msg | AttributeError msg
  | ValidationError msg | ResponseError msg | OtherException msg => msg
  | HTTPException status detail => pretty status +:+ ": " +:+ detail
  end.

Module Fetcher.

(** What [fetch] reads of the response of [requests.get]. *)
Record Response : Type := mkResponse {
  text : string;
  status_code : Z
}.

(** What [fetch] reads of the response of an [HTMLSession]: [html_text] is
    [response.html.text], and [rendered_text] is what [response.html.render]
    followed by [response.html.text] gives. *)
Record HTMLResponse : Type := mkHTMLResponse {
  html_raw : string;
  html_status_code : Z;
  html_text : Outcome string;
  rendered_text : Outcome string
}.

(** The libraries behind the fetchers. [soup_text] stands for the first part of
    [_clean_text]: the encoding is found, the text is parsed by BeautifulSoup,
    the script, style, noscript, meta and link elements are removed and
    [get_text] is called. *)
Record Library : Type := mkLibrary {
  requests_get : string → list (string * string) → Z → Outcome Response;
  soup_text : string → Outcome string;
  session_get : string → Z → Outcome HTMLResponse
}.

Record SimpleFetcher : Type := mkSimpleFetcher {
  timeout : Z;
  headers : list (string * string)
}.

Definition default_headers : list (string * string) :=
  [("User-Agent",
    "Mozilla/5.0 (Windows NT 10.0; Win64; x64) AppleWebKit/537.36 (KHTML, like Gecko) Chrome/91.0.4472.124 Safari/537.36")].

(** [SimpleFetcher.__init__]: [headers or {...}], an empty dict counts as none. *)
Definition SimpleFetcher_init (timeout : Z) (headers : option (list (string * string)))
    : SimpleFetcher :=
  mkSimpleFetcher timeout
    (match headers with
     | Some (header :: more) => header :: more
     | Some [] | None => default_headers
     end).

Definition _clean_text (lib : Library) (html : string) : Outcome string :=
  match soup_text lib html with
  | Return text => Return (Text.clean_lines text)
  | Raise e => Raise e
  end.

(** [SimpleFetcher.fetch] *)
Definition simple_fetch (lib : Library) (self : SimpleFetcher) : ContentFetcher := λ url,
  match requests_get lib url (headers self) (timeout self) with
  | Return response =>
      match _clean_text lib (text response) with
      | Return cleaned =>
          Return (mkFetchedContent url (text response) cleaned (status_code response) "")
      | Raise e => Return (mkFetchedContent url "" "" 0 (exception_str e))
      end
  | Raise e => Return (mkFetchedContent url "" "" 0 (exception_str e))
  end.

Record RequestsHtmlFetcher : Type := mkRequestsHtmlFetcher {
  render : bool;
  html_timeout : Z
}.

(** [RequestsHtmlFetcher.fetch]; the session, closed in the [finally] clause,
    is not modelled. *)
Definition html_fetch (lib : Library) (self : RequestsHtmlFetcher) : ContentFetcher := λ url,
  match session_get lib url (html_timeout self) with
  | Return response =>
      match (if render self then rendered_text response else html_text response) with
      | Return cleaned =>
          Return (mkFetchedContent url (html_raw response) cleaned
                    (html_status_code response) "")
      | Raise e => Return (mkFetchedContent url "" "" 0 (exception_str e))
      end
  | Raise e => Return (mkFetchedContent url "" "" 0 (exception_str e))
  end.

End Fetcher.

(** * search/search.py: the adapters of the providers *)

#[export] Instance Outcome_ret : MRet Outcome := λ A a, Return a.
#[export] Instance Outcome_bind : MBind Outcome := λ A B f o,
  match o with
  | Return a => f a
  | Raise e => Raise e
  end.

Module Adapters.
Import Search.

(** A value of the [params] of a request or of the keyword arguments of
    [DDGS.text]. *)
Inductive ParamValue : Type :=
  | PStr (s : string)
  | PInt (z : Z)
  | PNone.

(** What the adapters read of the response of [requests.get]: its status and
    what [response.json()] gives. *)
Record Response : Type := mkResponse {
  status_code : Z;
  json : Outcome Main.Json
}.

(** The libraries behind the adapters: [requests.get(url, headers, params)] and
    [DDGS().text(query, **search_params)]. *)
Record Library : Type := mkLibrary {
  requests_get : string → list (string * string) → list (string * ParamValue)
                 → Outcome Response;
  ddgs_text : string → list (string * ParamValue) → Outcome (list Main.Json)
}.

(** [response.raise_for_status()] *)
Definition raise_for_status (response : Response) : Outcome unit :=
  if ((400 <=? status_code response) && (status_code response <? 600))%Z
  then Raise (OtherException "HTTPError")
  else Return ().

(** [{..., **self.config.params}] *)
Definition with_params (base : list (string * ParamValue)) (config : SearchEngineConfig)
    : list (string * ParamValue) :=
  foldl (λ d item, dict_set item.1 (from_option PStr PNone item.2) d) base (params config).

(** [max_results = kwargs.get("max_results", None)] and, if it is true,
    [params[key] = max_results]: neither [None] nor 0 is. *)
Definition with_max_results (key : string) (kw : Kwargs)
    (request_params : list (string * ParamValue)) : list (string * ParamValue) :=
  match kw_max_results kw with
  | Some max_results =>
      if decide (max_results = 0%Z) then request_params
      else dict_set key (PInt max_results) request_params
  | None => request_params
  end.

(** [self.config.endpoint or url] *)
Definition endpoint_or (config : SearchEngineConfig) (address : string) : string :=
  if decide (endpoint config = "") then address else endpoint config.

(** [data.get(key, otherwise)], for what [json] made of a JSON text. *)
Definition get (data : Main.Json) (key : string) (otherwise : Main.Json)
    : Outcome Main.Json :=
  match data with
  | Main.JObj fields => Return (default otherwise (dict_get key fields))
  | _ => Raise (AttributeError "object has no attribute 'get'")
  end.

(** [item[key]] *)
Definition subscript (item : Main.Json) (key : string) : Outcome Main.Json :=
  match item with
  | Main.JObj fields =>
      match dict_get key fields with
      | Some value => Return value
      | None => Raise (OtherException ("KeyError: " +:+ key))
      end
  | Main.JArr _ => Raise (TypeError "list indices must be integers or slices, not str")
  | Main.JStr _ => Raise (TypeError "string indices must be integers, not 'str'")
  | _ => Raise (TypeError "object is not subscriptable")
  end.

(** [SearchResult(title=..., link=..., snippet=..., source_engine=...)]: the
    three values have to be strings. *)
Definition new_result (t l s : Main.Json) (source : string) : Outcome SearchResult :=
  match t, l, s with
  | Main.JStr t, Main.JStr l, Main.JStr s => Return (mkSearchResult t l s None source None)
  | _, _, _ => Raise (ValidationError "Input should be a valid string")
  end.

(** [[f(item) for item in items]], for a list. *)
Fixpoint for_each (f : Main.Json → Outcome SearchResult) (items : list Main.Json)
    : Outcome (list SearchResult) :=
  match items with
  | [] => Return []
  | item :: items' =>
      result ← f item;
      results ← for_each f items';
      Return (result :: results)
  end.

(** [[f(item) for item in value]] where [f] subscripts [item] with a string: a
    dict and a string are iterated too, and their items are strings. *)
Definition for_each_in (f : Main.Json → Outcome SearchResult) (value : Main.Json)
    : Outcome (list SearchResult) :=
  match value with
  | Main.JArr items => for_each f items
  | Main.JObj [] | Main.JStr EmptyString => Return []
  | Main.JObj (_ :: _) | Main.JStr (String _ _) =>
      Raise (TypeError "string indices must be integers, not 'str'")
  | _ => Raise (TypeError "object is not iterable")
  end.

Module Google.

Definition _parse_item (item : Main.Json) : Outcome SearchResult :=
  t ← subscript item "title";
  l ← subscript item "link";
  s ← subscript item "snippet";
  new_result t l s "Google".

Definition _parse_results (data : Main.Json) : Outcome (list SearchResult) :=
  items ← get data "items" (Main.JArr []);
  for_each_in _parse_item items.

Definition request_params (config : SearchEngineConfig) (query : string) (kw : Kwargs)
    : list (string * ParamValue) :=
  with_max_results "num" kw
    (with_params [("q", PStr query); ("key", PStr (api_key config))] config).

Definition search (lib : Library) (config : SearchEngineConfig) : SearchEngine := λ query kw,
  let headers := [] in
  response ← requests_get lib
    (endpoint_or config "https://www.googleapis.com/customsearch/v1")
    headers (request_params config query kw);
  raise_for_status response;;
  data ← json response;
  _parse_results data.

End Google.

Module Bing.

Definition _parse_item (item : Main.Json) : Outcome SearchResult :=
  t ← subscript item "name";
  l ← subscript item "url";
  s ← subscript item "snippet";
  new_result t l s "Bing".

Definition _parse_results (data : Main.Json) : Outcome (list SearchResult) :=
  web_pages ← get data "webPages" (Main.JObj []);
  value ← get web_pages "value" (Main.JArr []);
  for_each_in _parse_item value.

Definition request_params (config : SearchEngineConfig) (query : string) (kw : Kwargs)
    : list (string * ParamValue) :=
  with_max_results "count" kw (with_params [("q", PStr query)] config).

Definition search (lib : Library) (config : SearchEngineConfig) : SearchEngine := λ query kw,
  let headers := [("Ocp-Apim-Subscription-Key", api_key config)] in
  response ← requests_get lib
    (endpoint_or config "https://api.bing.microsoft.com/v7.0/search")
    headers (request_params config query kw);
  raise_for_status response;;
  data ← json response;
  _parse_results data.

End Bing.

Module DuckDuckGo.

(** [text.encode('utf-8', 'ignore').decode('utf-8').strip()]: the text is held
    in UTF-8, so that only [strip] does something. *)
Definition clean_text (value : Main.Json) : Outcome string :=
  match value with
  | Main.JStr text => Return (Text.strip text)
  | _ => Raise (AttributeError "object has no attribute 'encode'")
  end.

Definition _parse_results (item : Main.Json) : Outcome SearchResult :=
  t ← get item "title" (Main.JStr "");
  t ← clean_text t;
  l ← get item "href" (Main.JStr "");
  s ← get item "body" (Main.JStr "");
  s ← clean_text s;
  new_result (Main.JStr t) l (Main.JStr s) "DuckDuckGo".

Definition search_params (config : SearchEngineConfig) (kw : Kwargs)
    : list (string * ParamValue) :=
  with_max_results "max_results" kw
    (with_params [("safesearch", PStr "off"); ("timelimit", PStr "y")] config).

Definition search (lib : Library) (config : SearchEngineConfig) : SearchEngine := λ query kw,
  found ← ddgs_text lib query (search_params config kw);
  for_each _parse_results found.

End DuckDuckGo.

End Adapters.

(** * What an item of a provider's answer says *)

(** The item is an object whose three keys hold the title, the link and the
    snippet of the result, and the result is one that the adapter of [source]
    has just made. *)
Definition describes (title_key link_key snippet_key source : string)
    (item : Main.Json) (r : Search.SearchResult) : Prop :=
  ∃ fields,
    item = Main.JObj fields ∧
    Search.dict_get title_key fields = Some (Main.JStr (Search.title r)) ∧
    Search.dict_get link_key fields = Some (Main.JStr (Search.link r)) ∧
    Search.dict_get snippet_key fields = Some (Main.JStr (Search.snippet r)) ∧
    Search.content r = None ∧ Search.index r = None ∧ Search.source_engine r = source.

(** A result as an adapter makes it. *)
Definition fresh_from (source : string) (r : Search.SearchResult) : Prop :=
  Search.source_engine r = source ∧ Search.content r = None ∧ Search.index r = None.

(** * Concrete libraries, for the examples *)

Module SampleLibrary.

Definition rocq : Main.Json :=
  Main.JObj [ ("title", Main.JStr "Rocq");
              ("link", Main.JStr "https://rocq-prover.org/");
              ("snippet", Main.JStr "A proof assistant") ].

Definition google_answer : Main.Json :=
  Main.JObj [ ("kind", Main.JStr "customsearch#search");
              ("items", Main.JArr [rocq]) ].

Definition bing_answer : Main.Json :=
  Main.JObj [ ("webPages",
               Main.JObj [ ("value",
                            Main.JArr [ Main.JObj [ ("name", Main.JStr "Rocq");
                                                    ("url", Main.JStr "https://rocq-prover.org/");
                                                    ("snippet", Main.JStr "A proof assistant") ] ]) ]) ].

Definition duckduckgo_item : list (string * Main.Json) :=
  [ ("title", Main.JStr " Rocq "); ("href", Main.JStr "https://rocq-prover.org/") ].

Definition adapters : Adapters.Library :=
  Adapters.mkLibrary
    (λ address headers request_params,
       Return (Adapters.mkResponse 200 (Return google_answer)))
    (λ query search_params, Return [Main.JObj duckduckgo_item]).

Definition google_config : Search.SearchEngineConfig :=
  Search.mkSearchEngineConfig "google-key" "" [("cx", Some "cx")].

(** Libraries whose requests fail. *)
Definition offline : Fetcher.Library :=
  Fetcher.mkLibrary
    (λ address headers timeout, Raise (OtherException "ConnectionError"))
    (λ html, Return html)
    (λ address timeout, Raise (OtherException "ConnectionError")).

Definition result_of_rocq (source : string) : Search.SearchResult :=
  Search.mkSearchResult "Rocq" "https://rocq-prover.org/" "A proof assistant" None source None.

End SampleLibrary.

(** * Theorems *)

Import Search.

Section SearchTheorems.

Variable fetcher : ContentFetcher.
Variable llm_cli : LLMClient.

Local Abbreviation enrich := (enrich fetcher llm_cli).
Local Abbreviation enrich_all := (enrich_all fetcher llm_cli).

Lemma with_heap_id st : with_heap (heap st) st = st.
Proof. by destruct st. Qed.

Lemma enrich_link o : link (enrich o) = link o.
Proof. unfold Search.enrich. by destruct (enrichment _ _ _). Qed.

Lemma enrich_same_but_content o : same_but_content o (enrich o).
Proof. unfold Search.enrich, same_but_content. by destruct (enrichment _ _ _). Qed.

Lemma enrich_idemp o : enrich (enrich o) = enrich o.
Proof.
  unfold Search.enrich. destruct (enrichment _ _ (link o)) as [c|e] eqn:E; simpl.
  - by rewrite E.
  - by rewrite E.
Qed.

(** One task: the reference comes back, its object is [enrich]ed, nothing is logged. *)
Lemma fetch_content_by_search_result_run r st :
  _fetch_content_by_search_result fetcher llm_cli r st
  = (Return r, with_heap (alter enrich r (heap st)) st, []).
Proof.
  unfold _fetch_content_by_search_result, try_except, mbind, M_bind, getattr.
  destruct (heap st !! r) as [o|] eqn:Ho; simpl.
  - assert (Hal : ∀ f, f o = enrich o → alter f r (heap st) = alter enrich r (heap st)).
    { intros f Hf. apply list_alter_ext; [|done]. intros x Hx. rewrite Ho in Hx. by simplify_eq. }
    unfold await, Search.enrich, enrichment in *.
    destruct (fetcher (link o)) as [raw|e]; simpl.
    + destruct (llm_cli _) as [c|e]; simpl.
      * destruct (choices c) as [|reply cs]; simpl.
        -- rewrite <- (Hal id) by done. by rewrite list_alter_id, with_heap_id.
        -- by rewrite (Hal (set_content reply)).
      * rewrite <- (Hal id) by done. by rewrite list_alter_id, with_heap_id.
    + rewrite <- (Hal id) by done. by rewrite list_alter_id, with_heap_id.
  - assert (alter enrich r (heap st) = heap st) as ->; [|by rewrite with_heap_id].
    apply list_eq. intros j. rewrite list_lookup_alter. case_decide; [|done].
    subst. by rewrite Ho.
Qed.

Lemma enrich_all_length rs h : length (enrich_all rs h) = length h.
Proof.
  revert h. induction rs as [|r rs IH]; intros h; [done|].
  unfold Search.enrich_all in *. simpl. by rewrite IH, length_alter.
Qed.

(** An object whose reference is among the tasks is [enrich]ed (once or several
    times makes no difference), every other object is left alone. *)
Lemma enrich_all_lookup rs h j :
  enrich_all rs h !! j = if decide (j ∈ rs) then enrich <$> h !! j else h !! j.
Proof.
  revert h. induction rs as [|r rs IH]; intros h.
  - destruct (decide (j ∈ [])) as [Hj|_]; [by apply elem_of_nil in Hj|done].
  - change (enrich_all (r :: rs) h) with (enrich_all rs (alter enrich r h)).
    rewrite IH, list_lookup_alter.
    destruct (decide (r = j)) as [->|Hne].
    + destruct (decide (j ∈ j :: rs)) as [_|Hn]; [|by destruct Hn; left].
      case_decide; [|done].
      destruct (h !! j) as [o|]; simpl; [|done]. by rewrite enrich_idemp.
    + destruct (decide (j ∈ rs)) as [Hin|Hnin].
      * destruct (decide (j ∈ r :: rs)) as [_|Hn]; [done|by destruct Hn; right].
      * destruct (decide (j ∈ r :: rs)) as [[->|?]%elem_of_cons|_]; done.
Qed.

(** The order in which the tasks of a barrier finish makes no difference. *)
Lemma enrich_all_order rs rs' h : rs ≡ₚ rs' → enrich_all rs h = enrich_all rs' h.
Proof.
  intros Hp. apply list_eq. intros j. rewrite !enrich_all_lookup.
  destruct (decide (j ∈ rs)) as [Hin|Hnin].
  - rewrite decide_True; [done|]. by rewrite <- Hp.
  - rewrite decide_False; [done|]. by rewrite <- Hp.
Qed.

Lemma gather_run rs st :
  gather fetcher llm_cli rs st = (Return rs, with_heap (enrich_all rs (heap st)) st, []).
Proof.
  revert st. induction rs as [|r rs IH]; intros st.
  - simpl. unfold mret, M_ret. by rewrite with_heap_id.
  - simpl. unfold mbind, M_bind. rewrite fetch_content_by_search_result_run, IH. done.
Qed.

Lemma fetch_content_run rs st :
  _fetch_content fetcher llm_cli (RList rs) st
  = (Return rs, with_heap (enrich_all rs (heap st)) st,
     [EvGather (omap (λ r, link <$> heap st !! r) rs)]).
Proof.
  unfold _fetch_content, try_except, mbind, M_bind, links_of, emit.
  by rewrite gather_run.
Qed.

Lemma fetch_content_coroutine name query kw st :
  _fetch_content fetcher llm_cli (RCoroutine name query kw) st = (Return [], st, []).
Proof. done. Qed.

(** *** Objects that have just entered the heap *)

Lemma alter_fresh {A} (f : A → A) (h pre : list A) x l :
  alter f (length h + length pre) (h ++ pre ++ x :: l) = h ++ pre ++ f x :: l.
Proof.
  rewrite alter_app_r. f_equal.
  replace (length pre) with (length pre + 0) by lia. by rewrite alter_app_r.
Qed.

Lemma assign_index_fresh h pre l :
  assign_index (Z.of_nat (length pre)) (seq (length h + length pre) (length l))
    (h ++ pre ++ l)
  = h ++ pre ++ imap (λ i, set_index (Some (Z.of_nat (length pre + i)))) l.
Proof.
  revert pre. induction l as [|x l IH]; intros pre; [done|].
  simpl. rewrite alter_fresh.
  specialize (IH (pre ++ [set_index (Some (Z.of_nat (length pre))) x])).
  rewrite length_app in IH. simpl in IH.
  rewrite Nat2Z.inj_add, Nat.add_assoc, <- !(assoc_L (++)) in IH. simpl in IH.
  rewrite Nat.add_1_r in IH. change (Z.of_nat 1) with 1%Z in IH.
  rewrite IH, Nat.add_0_r.
  do 3 f_equal. apply imap_ext. intros i y _. simpl. do 3 f_equal. lia.
Qed.

Lemma assign_index_alloc h l :
  assign_index 0 (seq (length h) (length l)) (h ++ l) = h ++ numbered l.
Proof.
  pose proof (assign_index_fresh h [] l) as H. simpl in H.
  by rewrite Nat.add_0_r in H.
Qed.

Lemma enrich_all_fresh h pre l :
  enrich_all (seq (length h + length pre) (length l)) (h ++ pre ++ l)
  = h ++ pre ++ (enrich <$> l).
Proof.
  revert pre. induction l as [|x l IH]; intros pre; [done|].
  simpl. change (enrich_all (?r :: ?rs) ?h) with (enrich_all rs (alter enrich r h)).
  rewrite alter_fresh.
  specialize (IH (pre ++ [enrich x])).
  rewrite length_app in IH. simpl in IH.
  rewrite Nat.add_assoc, <- !(assoc_L (++)) in IH. simpl in IH.
  by rewrite Nat.add_1_r in IH.
Qed.

Lemma enrich_all_alloc h l :
  enrich_all (seq (length h) (length l)) (h ++ l) = h ++ (enrich <$> l).
Proof.
  pose proof (enrich_all_fresh h [] l) as H. simpl in H.
  by rewrite Nat.add_0_r in H.
Qed.

Lemma deref_alloc h l : deref (h ++ l) (seq (length h) (length l)) = Some <$> l.
Proof.
  unfold deref. revert h. induction l as [|x l IH]; intros h; [done|].
  simpl. f_equal.
  - rewrite lookup_app_r by lia. by rewrite Nat.sub_diag.
  - specialize (IH (h ++ [x])). rewrite length_app, Nat.add_1_r in IH. simpl in IH.
    by rewrite <- (assoc_L (++)) in IH.
Qed.

Lemma links_alloc h l :
  omap (λ r, link <$> (h ++ l) !! r) (seq (length h) (length l)) = link <$> l.
Proof.
  pose proof (deref_alloc h l) as H. unfold deref in H.
  revert H. generalize (seq (length h) (length l)). generalize (h ++ l).
  intros h' rs. revert rs. induction l as [|x l IH]; intros [|r rs] H; simplify_eq/=; [done|].
  rewrite H. simpl. f_equal. by apply IH.
Qed.

Lemma numbered_length l : length (numbered l) = length l.
Proof. apply length_imap. Qed.

Lemma numbered_link l : link <$> numbered l = link <$> l.
Proof.
  unfold numbered. rewrite fmap_imap, <- imap_const. by apply imap_ext.
Qed.

(** *** The loop of [search] in closed form *)

Lemma contribution_length query kw item :
  length (contribution fetcher llm_cli query kw item)
  = match item.2 query kw with Return l => length l | Raise _ => 0 end.
Proof.
  unfold contribution. destruct (item.2 query kw); [|done].
  destruct (get_fetch_content kw); by rewrite ?length_fmap, numbered_length.
Qed.

Lemma search_step_run query kw all_results item st :
  search_step fetcher llm_cli query kw all_results item st
  = (Return (all_results
             ++ seq (length (heap st)) (length (contribution fetcher llm_cli query kw item))),
     with_heap (heap st ++ contribution fetcher llm_cli query kw item) st,
     step_events query kw item).
Proof.
  rewrite contribution_length.
  unfold search_step, step_events, contribution, try_except, mbind, M_bind, emit, await.
  destruct (item.2 query kw) as [l|e]; simpl.
  - rewrite assign_index_alloc.
    destruct (get_fetch_content kw); simpl.
    + rewrite fetch_content_run. simpl.
      pose proof (enrich_all_alloc (heap st) (numbered l)) as E1.
      pose proof (links_alloc (heap st) (numbered l)) as E2.
      rewrite numbered_length in E1, E2. by rewrite E1, E2, numbered_link.
    + done.
  - by rewrite !app_nil_r, with_heap_id.
Qed.

Lemma search_loop_run query kw items : ∀ all_results st,
  search_loop fetcher llm_cli query kw all_results items st
  = (Return (all_results
             ++ seq (length (heap st))
                    (length (items ≫= contribution fetcher llm_cli query kw))),
     with_heap (heap st ++ (items ≫= contribution fetcher llm_cli query kw)) st,
     items ≫= step_events query kw).
Proof.
  induction items as [|item items IH]; intros all_results st.
  - simpl. unfold mret, M_ret. by rewrite !app_nil_r, with_heap_id.
  - simpl. unfold mbind at 1, M_bind at 1. rewrite search_step_run, IH. simpl.
    rewrite !length_app, seq_app, !(assoc_L (++)). done.
Qed.

Lemma search_run query kw st :
  search fetcher llm_cli query kw st
  = (Return (seq (length (heap st))
                 (length (engines st ≫= contribution fetcher llm_cli query kw))),
     with_heap (heap st ++ (engines st ≫= contribution fetcher llm_cli query kw)) st,
     engines st ≫= step_events query kw).
Proof.
  unfold search, get_state, mbind at 1, M_bind at 1. by rewrite search_loop_run.
Qed.

Lemma numbered_lookup l i :
  numbered l !! i = set_index (Some (Z.of_nat i)) <$> l !! i.
Proof. unfold numbered. by rewrite list_lookup_imap. Qed.

Lemma bind_contribution_succeed query kw items answers :
  get_fetch_content kw = false →
  Forall2 (λ item l, item.2 query kw = Return l) items answers →
  items ≫= contribution fetcher llm_cli query kw = concat (numbered <$> answers).
Proof.
  intros Hkw. induction 1 as [|item l items answers Hitem _ IH]; [done|].
  rewrite bind_cons, IH, fmap_cons. simpl in Hitem.
  unfold contribution at 1. by rewrite Hitem, Hkw.
Qed.

(** The place of an item in a concatenation: after the items of the lists
    before its own. *)
Lemma lookup_concat_offset {A} (ls : list (list A)) j l i x :
  ls !! j = Some l → l !! i = Some x →
  concat ls !! (sum_list (length <$> take j ls) + i) = Some x.
Proof.
  revert j. induction ls as [|l0 ls IH]; intros [|j]; simpl; try done.
  - intros [= ->] Hx. by apply lookup_app_l_Some.
  - intros Hl Hx. rewrite lookup_app_r by lia.
    rewrite <- Nat.add_assoc, (Nat.add_comm (length l0)), Nat.add_sub.
    by apply IH.
Qed.

Lemma lookup_concat_fmap_offset {A} (g : list A → list A) (ls : list (list A)) j l i x :
  (∀ l, length (g l) = length l) →
  ls !! j = Some l → g l !! i = Some x →
  concat (g <$> ls) !! (sum_list (length <$> take j ls) + i) = Some x.
Proof.
  intros Hg Hl Hx.
  replace (length <$> take j ls) with (length <$> take j (g <$> ls)).
  - apply (lookup_concat_offset _ j (g l)); [|done]. by rewrite list_lookup_fmap, Hl.
  - rewrite <- fmap_take, <- list_fmap_compose. apply list_fmap_ext. intros _ l' _. apply Hg.
Qed.

(** What the caller finds at a place of the list it was returned. *)
Lemma deref_lookup h rs (os : list SearchResult) k x :
  deref h rs = Some <$> os → os !! k = Some x →
  ∃ r, rs !! k = Some r ∧ h !! r = Some x.
Proof.
  unfold deref. intros Heq Hx.
  assert (H : ((h !!.) <$> rs) !! k = Some (Some x)) by (by rewrite Heq, list_lookup_fmap, Hx).
  rewrite list_lookup_fmap in H. destruct (rs !! k) as [r|]; [|done].
  exists r. split; [done|]. by injection H.
Qed.

(** C1. When every registered engine answers, [search] without enrichment returns
    the engines' results one engine after the other, in the order of the
    registry; there are as many as the answers have together. The result that
    an engine gave at place [i] of its answer is found after the results of the
    engines before it, carries the index [i], whatever the other engines
    returned, and is otherwise as the engine gave it. *)
Theorem search_concatenates_numbered_answers query kw st answers :
  get_fetch_content kw = false →
  Forall2 (λ item l, item.2 query kw = Return l) (engines st) answers →
  ∃ rs,
    outcome (search fetcher llm_cli query kw st) = Return rs ∧
    deref (heap (final (search fetcher llm_cli query kw st))) rs
      = Some <$> concat (numbered <$> answers) ∧
    length rs = sum_list (length <$> answers) ∧
    ∀ j l i o, answers !! j = Some l → l !! i = Some o →
      ∃ r o',
        rs !! (sum_list (length <$> take j answers) + i) = Some r ∧
        heap (final (search fetcher llm_cli query kw st)) !! r = Some o' ∧
        index o' = Some (Z.of_nat i) ∧
        title o' = title o ∧ link o' = link o ∧ snippet o' = snippet o ∧
        content o' = content o ∧ source_engine o' = source_engine o.
Proof.
  intros Hkw Hall. rewrite search_run. unfold outcome, final. simpl.
  rewrite (bind_contribution_succeed _ _ _ _ Hkw Hall).
  eexists. split; [done|]. split; [apply deref_alloc|]. split.
  - rewrite length_seq, length_concat, <- list_fmap_compose.
    f_equal. apply list_fmap_ext. intros _ l _. apply numbered_length.
  - intros j l i o Hl Ho.
    destruct (deref_lookup _ _ _ (sum_list (length <$> take j answers) + i)
                (set_index (Some (Z.of_nat i)) o)
                (deref_alloc (heap st) (concat (numbered <$> answers))))
      as (r & Hr & Hh).
    { apply (lookup_concat_fmap_offset numbered _ j l); [apply numbered_length|done|].
      by rewrite numbered_lookup, Ho. }
    exists r, (set_index (Some (Z.of_nat i)) o). by repeat split.
Qed.

Lemma bind_contribution_raise query kw before item after e :
  item.2 query kw = Raise e →
  (before ++ item :: after) ≫= contribution fetcher llm_cli query kw
  = (before ++ after) ≫= contribution fetcher llm_cli query kw.
Proof.
  intros He. rewrite !bind_app, bind_cons. f_equal.
  unfold contribution at 1. by rewrite He.
Qed.

(** C2. An engine whose search raises does not make [search] raise and brings no
    result; the references returned and the objects they denote are those of a
    run in which that engine is not registered at all. *)
Theorem search_isolates_failing_engine query kw h before name engine after e :
  engine query kw = Raise e →
  let run := search fetcher llm_cli query kw (mkSt (before ++ (name, engine) :: after) h) in
  let without := search fetcher llm_cli query kw (mkSt (before ++ after) h) in
  contribution fetcher llm_cli query kw (name, engine) = [] ∧
  (∃ rs, outcome run = Return rs ∧ outcome without = Return rs ∧
         deref (heap (final run)) rs = deref (heap (final without)) rs) ∧
  heap (final run) = heap (final without).
Proof.
  intros He run without. subst run without. rewrite !search_run.
  unfold outcome, final. simpl.
  rewrite (bind_contribution_raise query kw before (name, engine) after e He).
  split; [|by eauto].
  unfold contribution. simpl. by rewrite He.
Qed.

(** [search] never raises. *)
Lemma search_returns query kw st :
  returns (outcome (search fetcher llm_cli query kw st)) = true.
Proof. by rewrite search_run. Qed.

(** C3. [_fetch_content] hands back the very list of results it was given: no
    result is dropped, none is added, the order is kept. Each object is left as
    it was, or has as [content] the reply obtained for its link. *)
Theorem fetch_content_keeps_every_result rs st :
  let run := _fetch_content fetcher llm_cli (RList rs) st in
  outcome run = Return rs ∧
  length (heap (final run)) = length (heap st) ∧
  ∀ r o, heap st !! r = Some o →
    ∃ o', heap (final run) !! r = Some o' ∧
      (o' = o ∨ ∃ reply, enrichment fetcher llm_cli (link o) = Return reply
                         ∧ o' = set_content reply o).
Proof.
  intros run. subst run. rewrite fetch_content_run. unfold outcome, final. simpl.
  split; [done|]. split; [apply enrich_all_length|].
  intros r o Ho. rewrite enrich_all_lookup, Ho.
  case_decide; simpl; [|by eauto].
  eexists. split; [done|]. unfold Search.enrich.
  destruct (enrichment _ _ _) as [reply|]; eauto.
Qed.

(** C9. [_fetch_content] returns the results in the order it received them, and
    each of them has the title, link, snippet, source engine and index it had:
    only [content] can differ. *)
Theorem fetch_content_changes_content_only rs st :
  let run := _fetch_content fetcher llm_cli (RList rs) st in
  outcome run = Return rs ∧
  Forall2 (option_Forall2 same_but_content)
    (deref (heap st) rs) (deref (heap (final run)) rs).
Proof.
  intros run. subst run. rewrite fetch_content_run. unfold outcome, final, deref. simpl.
  split; [done|].
  apply Forall2_fmap, Forall_Forall2_diag, Forall_forall. intros r _.
  rewrite enrich_all_lookup. case_decide.
  - destruct (heap st !! r); constructor. apply enrich_same_but_content.
  - destruct (heap st !! r); constructor. by repeat split.
Qed.

(** C5. When the fetch of the page or the completion raises, the task of a result
    catches the exception and returns the same object; nothing was written, so
    its [content] is what it was (unset, for a result that comes from an engine). *)
Theorem fetch_content_by_search_result_failure r o st e :
  heap st !! r = Some o →
  (fetcher (link o) = Raise e ∨
   ∃ raw_content, fetcher (link o) = Return raw_content ∧
     llm_cli [ mkMessage "system" system_prompt;
               mkMessage "user" (clean_text raw_content) ] = Raise e) →
  let run := _fetch_content_by_search_result fetcher llm_cli r st in
  outcome run = Return r ∧ final run = st ∧
  content <$> heap (final run) !! r = Some (content o).
Proof.
  intros Ho Hfail run.
  assert (run = (Return r, st, [])) as ->;
    [|unfold outcome, final; simpl; by rewrite Ho].
  subst run.
  unfold _fetch_content_by_search_result, try_except, mbind, M_bind, getattr, await.
  rewrite Ho. simpl.
  destruct Hfail as [->|(raw & -> & Hllm)]; simpl; [done|]. by rewrite Hllm.
Qed.

Lemma dict_get_None {V} name (d : list (string * V)) :
  name ∉ d.*1 → dict_get name d = None.
Proof.
  induction d as [|[k v] d IH]; [done|]. simpl. intros Hn.
  rewrite not_elem_of_cons in Hn. destruct Hn as [Hne Hn].
  rewrite decide_False by done. by apply IH.
Qed.

(** C8. [search_by_engine] with a name that is not in the registry raises
    [ValueError]; nothing catches it there, no engine is called and the state of
    the service, its registry included, is what it was. *)
Theorem search_by_engine_not_configured engine_name query kw st :
  engine_name ∉ (engines st).*1 →
  let run := search_by_engine fetcher llm_cli engine_name query kw st in
  outcome run = Raise (ValueError ("Engine " +:+ engine_name +:+ " not configured")) ∧
  engines (final run) = engines st ∧ final run = st ∧ events run = [].
Proof.
  intros Hn run. subst run.
  unfold search_by_engine, get_state, mbind, M_bind.
  by rewrite (dict_get_None _ _ Hn).
Qed.

(** *** The orchestrator of section 4.1, in closed form *)

Lemma search_step_after_all_run query kw all_results item st :
  search_step_after_all query kw all_results item st
  = (Return (all_results ++ seq (length (heap st)) (length (numbered_answer query kw item))),
     with_heap (heap st ++ numbered_answer query kw item) st,
     [EvSearch item.1 query kw]).
Proof.
  unfold search_step_after_all, numbered_answer, try_except, mbind, M_bind, emit, await.
  destruct (item.2 query kw) as [l|e]; simpl.
  - by rewrite assign_index_alloc, numbered_length.
  - by rewrite !app_nil_r, with_heap_id.
Qed.

Lemma search_loop_after_all_run query kw items : ∀ all_results st,
  search_loop_after_all query kw all_results items st
  = (Return (all_results
             ++ seq (length (heap st)) (length (items ≫= numbered_answer query kw))),
     with_heap (heap st ++ (items ≫= numbered_answer query kw)) st,
     (λ item, EvSearch item.1 query kw) <$> items).
Proof.
  induction items as [|item items IH]; intros all_results st.
  - simpl. unfold mret, M_ret. by rewrite !app_nil_r, with_heap_id.
  - simpl. unfold mbind at 1, M_bind at 1. rewrite search_step_after_all_run, IH. simpl.
    rewrite !length_app, seq_app, !(assoc_L (++)). done.
Qed.

Lemma search_after_all_run query kw st :
  get_fetch_content kw = true →
  search_after_all fetcher llm_cli query kw st
  = (Return (seq (length (heap st)) (length (engines st ≫= numbered_answer query kw))),
     with_heap (heap st ++ (enrich <$> (engines st ≫= numbered_answer query kw))) st,
     ((λ item, EvSearch item.1 query kw) <$> engines st)
     ++ [EvGather (link <$> (engines st ≫= numbered_answer query kw))]).
Proof.
  intros Hkw. unfold search_after_all, get_state, mbind, M_bind.
  rewrite search_loop_after_all_run, Hkw, fetch_content_run. simpl.
  by rewrite enrich_all_alloc, links_alloc.
Qed.

Lemma bind_contribution_enriched query kw items :
  get_fetch_content kw = true →
  items ≫= contribution fetcher llm_cli query kw
  = enrich <$> (items ≫= numbered_answer query kw).
Proof.
  intros Hkw. induction items as [|item items IH]; [done|].
  rewrite !bind_cons, fmap_app, IH. f_equal.
  unfold contribution, numbered_answer. rewrite Hkw. by destruct (item.2 query kw).
Qed.

(** C4, as the code has it. With [fetch_content] requested, [search] enriches
    engine by engine: the barrier for the results of an engine stands right after
    the search of that engine and before the search of the next one, one barrier
    for each engine that answered. The list returned and the objects it denotes
    are nevertheless those obtained by querying all engines first and enriching
    the concatenation of their numbered results in one batch. *)
Theorem search_enriches_engine_by_engine query kw st :
  get_fetch_content kw = true →
  let run := search fetcher llm_cli query kw st in
  let batch := search_after_all fetcher llm_cli query kw st in
  events run
    = engines st ≫= (λ item,
        EvSearch item.1 query kw ::
        match item.2 query kw with
        | Return l => [EvGather (link <$> l)]
        | Raise _ => []
        end) ∧
  outcome run = outcome batch ∧
  final run = final batch.
Proof.
  intros Hkw run batch. subst run batch.
  rewrite search_run, (search_after_all_run _ _ _ Hkw).
  unfold events, outcome, final. simpl.
  rewrite (bind_contribution_enriched _ _ _ Hkw), length_fmap.
  split; [|done].
  apply list_bind_ext; [|done]. intros item. unfold step_events. by rewrite Hkw.
Qed.

(** [search_by_engine] with a registered name does not await the engine. *)
Lemma search_by_engine_configured engine_name engine query kw st :
  dict_get engine_name (engines st) = Some engine →
  search_by_engine fetcher llm_cli engine_name query kw st
  = (Return (if get_fetch_content kw then RList []
             else RCoroutine engine_name query kw), st, []).
Proof.
  intros He. unfold search_by_engine, get_state, mbind, M_bind. rewrite He.
  by destruct (get_fetch_content kw).
Qed.

End SearchTheorems.

(** ** The theorems at concrete inputs *)

Lemma search_concatenates_numbered_answers_witness :
  get_fetch_content Fixture.plain = false ∧
  ∃ rs,
    outcome (search Fixture.fetcher Fixture.llm_cli "rocq" Fixture.plain Fixture.two_engines)
      = Return rs ∧
    deref (heap (final (search Fixture.fetcher Fixture.llm_cli "rocq" Fixture.plain
                          Fixture.two_engines))) rs
      = Some <$> concat (numbered <$>
          [ [ Fixture.hit "a" "https://a.example/" "DuckDuckGo";
              Fixture.hit "b" "https://b.example/" "DuckDuckGo" ];
            [ Fixture.hit "c" "https://c.example/" "Google" ] ]) ∧
    length rs = 3 ∧
    ∀ j l i o,
      [ [ Fixture.hit "a" "https://a.example/" "DuckDuckGo";
          Fixture.hit "b" "https://b.example/" "DuckDuckGo" ];
        [ Fixture.hit "c" "https://c.example/" "Google" ] ] !! j = Some l →
      l !! i = Some o →
      ∃ r o',
        rs !! (sum_list (length <$> take j
                 [ [ Fixture.hit "a" "https://a.example/" "DuckDuckGo";
                     Fixture.hit "b" "https://b.example/" "DuckDuckGo" ];
                   [ Fixture.hit "c" "https://c.example/" "Google" ] ]) + i) = Some r ∧
        heap (final (search Fixture.fetcher Fixture.llm_cli "rocq" Fixture.plain
                       Fixture.two_engines)) !! r = Some o' ∧
        index o' = Some (Z.of_nat i) ∧
        title o' = title o ∧ link o' = link o ∧ snippet o' = snippet o ∧
        content o' = content o ∧ source_engine o' = source_engine o.
Proof.
  split; [reflexivity|].
  apply (search_concatenates_numbered_answers Fixture.fetcher Fixture.llm_cli
           "rocq" Fixture.plain Fixture.two_engines); [reflexivity|].
  vm_compute. repeat constructor.
Defined.

Lemma search_isolates_failing_engine_witness :
  Fixture.bing "rocq" Fixture.plain = Raise (OtherException "401 Client Error") ∧
  heap (final (search Fixture.fetcher Fixture.llm_cli "rocq" Fixture.plain
                 (mkSt ([("duckduckgo", Fixture.duckduckgo)]
                        ++ ("bing", Fixture.bing) :: [("google", Fixture.google)]) [])))
  = heap (final (search Fixture.fetcher Fixture.llm_cli "rocq" Fixture.plain
                   (mkSt ([("duckduckgo", Fixture.duckduckgo)]
                          ++ [("google", Fixture.google)]) []))).
Proof.
  split; [reflexivity|].
  apply (search_isolates_failing_engine Fixture.fetcher Fixture.llm_cli "rocq" Fixture.plain
           [] [("duckduckgo", Fixture.duckduckgo)] "bing" Fixture.bing
           [("google", Fixture.google)] (OtherException "401 Client Error")).
  reflexivity.
Defined.

Lemma fetch_content_by_search_result_failure_witness :
  let o := Fixture.hit "d" "https://down.example/" "Google" in
  let st := mkSt [] [o] in
  Fixture.fetcher (link o) = Raise (OtherException "ConnectionError") ∧
  outcome (_fetch_content_by_search_result Fixture.fetcher Fixture.llm_cli 0 st) = Return 0 ∧
  final (_fetch_content_by_search_result Fixture.fetcher Fixture.llm_cli 0 st) = st.
Proof.
  intros o st. split; [reflexivity|].
  pose proof (fetch_content_by_search_result_failure Fixture.fetcher Fixture.llm_cli
                0 o st (OtherException "ConnectionError") eq_refl (or_introl eq_refl)) as H.
  exact (conj (proj1 H) (proj1 (proj2 H))).
Defined.

Lemma search_by_engine_not_configured_witness :
  ("bing" ∉ (engines Fixture.two_engines).*1) ∧
  outcome (search_by_engine Fixture.fetcher Fixture.llm_cli "bing" "rocq" Fixture.plain
             Fixture.two_engines)
  = Raise (ValueError "Engine bing not configured").
Proof.
  assert (Hn : "bing" ∉ (engines Fixture.two_engines).*1).
  { vm_compute. intros H. repeat (apply elem_of_cons in H as [H|H]; [discriminate H|]).
    by apply elem_of_nil in H. }
  split; [exact Hn|].
  exact (proj1 (search_by_engine_not_configured Fixture.fetcher Fixture.llm_cli
                  "bing" "rocq" Fixture.plain Fixture.two_engines Hn)).
Defined.

Lemma search_enriches_engine_by_engine_witness :
  get_fetch_content Fixture.enriched = true ∧
  events (search Fixture.fetcher Fixture.llm_cli "rocq" Fixture.enriched Fixture.three_engines)
  = [ EvSearch "duckduckgo" "rocq" Fixture.enriched;
      EvGather ["https://a.example/"; "https://b.example/"];
      EvSearch "bing" "rocq" Fixture.enriched;
      EvSearch "google" "rocq" Fixture.enriched;
      EvGather ["https://c.example/"] ] ∧
  final (search Fixture.fetcher Fixture.llm_cli "rocq" Fixture.enriched Fixture.three_engines)
  = final (search_after_all Fixture.fetcher Fixture.llm_cli "rocq" Fixture.enriched
             Fixture.three_engines).
Proof.
  split; [reflexivity|].
  pose proof (search_enriches_engine_by_engine Fixture.fetcher Fixture.llm_cli
                "rocq" Fixture.enriched Fixture.three_engines eq_refl) as H.
  exact (conj (proj1 H) (proj2 (proj2 H))).
Defined.

(** C4, as the claim has it, fails: with two engines that answer, the barrier for
    the first engine's results is over before the second engine is queried, and
    the run has two barriers, where querying first and enriching after has one. *)
Lemma search_one_barrier_counterexample :
  let run := search Fixture.fetcher Fixture.llm_cli "rocq" Fixture.enriched
               Fixture.two_engines in
  let batch := search_after_all Fixture.fetcher Fixture.llm_cli "rocq" Fixture.enriched
                 Fixture.two_engines in
  get_fetch_content Fixture.enriched = true ∧
  events run
  = [ EvSearch "duckduckgo" "rocq" Fixture.enriched;
      EvGather ["https://a.example/"; "https://b.example/"];
      EvSearch "google" "rocq" Fixture.enriched;
      EvGather ["https://c.example/"] ] ∧
  events batch
  = [ EvSearch "duckduckgo" "rocq" Fixture.enriched;
      EvSearch "google" "rocq" Fixture.enriched;
      EvGather ["https://a.example/"; "https://b.example/"; "https://c.example/"] ] ∧
  searches_then_one_barrier (events batch) = true ∧
  searches_then_one_barrier (events run) = false ∧
  (events run ≠ events batch).
Proof. vm_compute. repeat split; discriminate. Qed.

(** ** main.py *)

Section MainTheorems.

Variable w : Main.World.
Variable env : Main.Environ.

Lemma register_unrecognised o name :
  ¬ Main.recognised name → Main.register w env o name = Return o.
Proof.
  unfold Main.recognised, Main.register. intros Hn.
  destruct (decide (name = "google")); [destruct Hn; by left|].
  destruct (decide (name = "duckduckgo")); [destruct Hn; by right|done].
Qed.

Lemma register_all_filter names : ∀ o,
  Main.register_all w env o names
  = Main.register_all w env o (filter Main.recognised names).
Proof.
  induction names as [|name names IH]; intros o; [done|].
  rewrite filter_cons. case_decide as Hr.
  - simpl. destruct (Main.register w env o name); [apply IH|done].
  - simpl. rewrite (register_unrecognised _ _ Hr). apply IH.
Qed.

Lemma dict_set_keys {V} k (v : V) d name :
  name ∈ (dict_set k v d).*1 → name = k ∨ name ∈ d.*1.
Proof.
  induction d as [|[k' v'] d IH]; simpl.
  - intros ?%list_elem_of_singleton. by left.
  - case_decide; simpl; rewrite !elem_of_cons.
    + intros [->|?]; [by left|by right; right].
    + intros [->|[->|?]%IH]; [by right; left|by left|by right; right].
Qed.

Lemma register_keys o o' engine name :
  Main.register w env o engine = Return o' →
  name ∈ (engines o').*1 → Main.recognised name ∨ name ∈ (engines o).*1.
Proof.
  unfold Main.register, Main.recognised.
  repeat case_decide; [destruct (Main.GOOGLE_API_KEY env)|..]; intros; simplify_eq/=;
    try (by right);
    match goal with H : _ ∈ _ |- _ => apply dict_set_keys in H as [->|?] end; auto.
Qed.

Lemma register_all_keys names : ∀ o o' name,
  Main.register_all w env o names = Return o' →
  name ∈ (engines o').*1 → Main.recognised name ∨ name ∈ (engines o).*1.
Proof.
  induction names as [|engine names IH]; intros o o' name; simpl.
  - intros; simplify_eq. by right.
  - destruct (Main.register w env o engine) as [o1|] eqn:E; [|done].
    intros H Hin. destruct (IH _ _ _ H Hin) as [?|Hin1]; [by left|].
    by apply (register_keys _ _ _ _ E).
Qed.

(** C10. The loop over [search_engines] registers an engine for the names
    [google] and [duckduckgo] and no other: every other name, [bing] included, is
    passed over without an error. A request that names unrecognised engines only,
    and is not answered from the cache, gets an empty [data] with code 0 and
    message [success]; no provider is called and nothing is cached. *)
Theorem search_passes_over_unrecognised_engines req t_get t_set srv :
  (∀ o, Main.register_all w env o (Main.search_engines req)
        = Main.register_all w env o (filter Main.recognised (Main.search_engines req))) ∧
  (∀ o name, Main.register_all w env init (Main.search_engines req) = Return o →
             name ∈ (engines o).*1 → name = "google" ∨ name = "duckduckgo") ∧
  (Forall (λ name, ¬ Main.recognised name) (Main.search_engines req) →
   Main.redis_get (Main.cache_key w req) t_get (Main.redis srv) = None →
   Main.search w env req t_get t_set srv
   = (Return (Main.mkEnvelope (Main.Objects []) 0 "success"), srv)).
Proof.
  split; [intros o; apply register_all_filter|]. split.
  - intros o name H Hin. destruct (register_all_keys _ _ _ _ H Hin) as [?|Hin']; [done|].
    by apply elem_of_nil in Hin'.
  - intros Hall Hmiss. unfold Main.search. rewrite Hmiss, register_all_filter.
    assert (filter Main.recognised (Main.search_engines req) = []) as ->.
    { induction Hall as [|name names Hn _ IH]; [done|].
      rewrite filter_cons. by case_decide. }
    simpl. rewrite app_nil_r. by destruct srv.
Qed.

Lemma redis_get_setex key ttl value t_set now r r' :
  Main.redis_setex key ttl value t_set r = Return r' →
  (now < t_set + 1000 * ttl)%Z →
  Main.redis_get key now r' = Some value.
Proof.
  unfold Main.redis_setex, Main.redis_get. intros Hset Hnow.
  destruct (0 <? ttl)%Z; simplify_eq/=.
  rewrite lookup_insert_eq. by rewrite (proj2 (Z.ltb_lt _ _) Hnow).
Qed.

(** What a request that misses the cache and gets results leaves behind. *)
Lemma search_miss_with_results req t_get t_set srv results :
  Main.redis_get (Main.cache_key w req) t_get (Main.redis srv) = None →
  (Main.search w env req t_get t_set srv).1
    = Return (Main.mkEnvelope (Main.Objects results) 0 "success") →
  results ≠ [] →
  ∃ ttl r',
    Main.search_ttl w env = Return ttl ∧
    Main.redis_setex (Main.cache_key w req) ttl (Main.JArr (Main.model_dump <$> results))
      t_set (Main.redis srv) = Return r' ∧
    Main.redis (Main.search w env req t_get t_set srv).2 = r'.
Proof.
  intros Hmiss. unfold Main.search. rewrite Hmiss.
  destruct (Main.register_all w env init _) as [o|]; [|done].
  rewrite search_run. unfold outcome, final, events. simpl.
  rewrite length_seq.
  destruct (0 <? _)%nat eqn:Hlen.
  - destruct (Main.search_ttl w env) as [ttl|]; [|done].
    destruct (Main.redis_setex _ _ _ _ _) as [r'|] eqn:Hset; [|done].
    simpl. intros [= <-] _. eauto.
  - apply Nat.ltb_ge in Hlen.
    destruct (length _) eqn:Hl; [|lia]. simpl. by intros [= <-].
Qed.

(** The objects that a run leaves in an empty heap, read through the references
    it returns. *)
Lemma omap_lookup_alloc (h l : list SearchResult) :
  omap ((h ++ l) !!.) (seq (length h) (length l)) = l.
Proof.
  revert h. induction l as [|x l IH]; intros h; [done|].
  simpl. rewrite lookup_app_r by lia. rewrite Nat.sub_diag. simpl. f_equal.
  specialize (IH (h ++ [x])). rewrite length_app, Nat.add_1_r in IH.
  by rewrite <- (assoc_L (++)) in IH.
Qed.

Lemma contribution_indexed fetcher llm_cli query kw item :
  Forall (λ r, is_Some (index r)) (contribution fetcher llm_cli query kw item).
Proof.
  unfold contribution. destruct (item.2 query kw) as [l|]; [|constructor].
  assert (H : Forall (λ r, is_Some (index r)) (numbered l)).
  { apply Forall_lookup. intros i r. rewrite numbered_lookup.
    destruct (l !! i); [|done]. intros [= <-]. by eexists. }
  destruct (get_fetch_content kw); [|done].
  apply Forall_fmap. eapply Forall_impl; [exact H|]. intros r Hr. simpl.
  by destruct (enrich_same_but_content fetcher llm_cli r) as (_ & _ & _ & _ & ->).
Qed.

(** Every result that the endpoint returns after a miss has its index. *)
Lemma search_miss_indexed req t_get t_set srv results :
  (Main.search w env req t_get t_set srv).1
    = Return (Main.mkEnvelope (Main.Objects results) 0 "success") →
  Forall (λ r, is_Some (index r)) results.
Proof.
  unfold Main.search. destruct (Main.redis_get _ _ _); [done|].
  destruct (Main.register_all w env init _) as [o|]; [|done].
  rewrite search_run. unfold outcome, final, events. simpl.
  rewrite !omap_lookup_alloc.
  assert (Hall : Forall (λ r, is_Some (index r))
                   (engines o ≫= contribution (Main.RequestsHtmlFetcher w)
                      (Main.GPTClient w (default "gpt-4o-mini" (Main.MODEL_NAME env)))
                      (Main.str_strip w (Main.query req))
                      (mkKwargs (Some (Main.max_results req)) (Some (Main.fetch_content req))))).
  { apply Forall_bind, Forall_forall. intros item _. apply contribution_indexed. }
  destruct (0 <? _)%nat.
  - destruct (Main.search_ttl w env) as [ttl|]; [|done].
    destruct (Main.redis_setex _ _ _ _ _); [|done].
    simpl. by intros [= <-].
  - simpl. by intros [= <-].
Qed.

(** *** The validation of the response *)

Lemma validate_result_model_dump r :
  is_Some (content r) → is_Some (index r) →
  Main.validate_result w (Main.model_dump r) = Return r.
Proof. destruct r as [t l s c source i]. simpl. by intros [c' ->] [i' ->]. Qed.

Lemma validate_result_no_content r :
  content r = None → ∃ e, Main.validate_result w (Main.model_dump r) = Raise e.
Proof. destruct r as [t l s c source [i|]]; simpl; intros ->; by eexists. Qed.

Lemma validate_results_model_dump results :
  Forall (λ r, is_Some (content r)) results →
  Forall (λ r, is_Some (index r)) results →
  Main.validate_results w (Main.model_dump <$> results) = Return results.
Proof.
  induction 1 as [|r results Hc _ IH]; [done|].
  intros [Hi Hall]%Forall_cons. rewrite fmap_cons.
  change (Main.validate_results w (Main.model_dump r :: (Main.model_dump <$> results)))
    with (match Main.validate_result w (Main.model_dump r),
                Main.validate_results w (Main.model_dump <$> results) with
          | Return r, Return rs => Return (r :: rs)
          | _, _ => Raise (ValidationError "response: data")
          end).
  by rewrite (validate_result_model_dump r Hc Hi), (IH Hall).
Qed.

Lemma validate_results_no_content results :
  Exists (λ r, content r = None) results →
  ∃ e, Main.validate_results w (Main.model_dump <$> results) = Raise e.
Proof.
  induction 1 as [r results Hc|r results _ [e IH]]; rewrite fmap_cons;
    change (Main.validate_results w (Main.model_dump r :: (Main.model_dump <$> results)))
      with (match Main.validate_result w (Main.model_dump r),
                  Main.validate_results w (Main.model_dump <$> results) with
            | Return r, Return rs => Return (r :: rs)
            | _, _ => Raise (ValidationError "response: data")
            end).
  - destruct (validate_result_no_content r Hc) as [e ->]. by eexists.
  - rewrite IH. destruct (Main.validate_result w (Main.model_dump r)); by eexists.
Qed.

(** What the first request leaves and what the second one finds. *)
Lemma search_hit_after_miss req t1 t1' t2 t2' srv results ttl :
  Main.redis_get (Main.cache_key w req) t1 (Main.redis srv) = None →
  (Main.search w env req t1 t1' srv).1
    = Return (Main.mkEnvelope (Main.Objects results) 0 "success") →
  results ≠ [] →
  Main.search_ttl w env = Return ttl →
  (t1' ≤ t2 < t1' + 1000 * ttl)%Z →
  let srv1 := (Main.search w env req t1 t1' srv).2 in
  let cached := Main.JArr (Main.model_dump <$> results) in
  Main.entries (Main.redis srv1) !! Main.cache_key w req
    = Some (cached, (t1' + 1000 * ttl)%Z) ∧
  Main.search w env req t2 t2' srv1
    = (Return (Main.mkEnvelope (Main.Loaded cached) 0 "success"), srv1).
Proof.
  intros Hmiss Hfirst Hresults Httl [_ Ht2] srv1 cached.
  destruct (search_miss_with_results _ _ _ _ _ Hmiss Hfirst Hresults)
    as (ttl' & r' & Httl' & Hset & Hr').
  rewrite Httl in Httl'. injection Httl' as <-. split.
  - subst srv1. rewrite Hr'. unfold Main.redis_setex in Hset.
    destruct (0 <? ttl)%Z; [|done]. injection Hset as <-. simpl.
    apply lookup_insert_eq.
  - unfold Main.search at 1. fold srv1. replace (Main.redis srv1) with r' by done.
    by rewrite (redis_get_setex _ _ _ _ _ _ _ Hset Ht2).
Qed.

(** C6, as the code has it. A request that is not answered from the cache and
    gets a list of results that is not empty stores the JSON of that list under
    the key [search_api.search.] followed by the MD5 digest of the request's
    signature, for [SEARCH_TTL] seconds (30 when the variable is not set). The
    same request, made before that time has passed, calls no provider and leaves
    the cache as it is: the endpoint returns the stored JSON, which is the JSON
    of the first answer. When every result has a [content], that JSON passes the
    validation of the response, and the second response is the first one. *)
Theorem repeated_request_answered_from_cache req t1 t1' t2 t2' srv results ttl :
  Main.redis_get (Main.cache_key w req) t1 (Main.redis srv) = None →
  (Main.search w env req t1 t1' srv).1
    = Return (Main.mkEnvelope (Main.Objects results) 0 "success") →
  results ≠ [] →
  Main.search_ttl w env = Return ttl →
  (t1' ≤ t2 < t1' + 1000 * ttl)%Z →
  let srv1 := (Main.search w env req t1 t1' srv).2 in
  let cached := Main.JArr (Main.model_dump <$> results) in
  let first := endpoint_response w env req t1 t1' srv in
  let second := endpoint_response w env req t2 t2' srv1 in
  (Main.SEARCH_TTL env = None → ttl = 30%Z) ∧
  Main.entries (Main.redis srv1) !! Main.cache_key w req
    = Some (cached, (t1' + 1000 * ttl)%Z) ∧
  Main.search w env req t2 t2' srv1
    = (Return (Main.mkEnvelope (Main.Loaded cached) 0 "success"), srv1) ∧
  Main.payload (Main.Loaded cached) = Main.payload (Main.Objects results) ∧
  first = (Main.Success (Main.response_body results 0 "success"), srv1) ∧
  second.2 = srv1 ∧
  (Forall (λ r, is_Some (content r)) results → second = first).
Proof.
  intros Hmiss Hfirst Hresults Httl Ht2 srv1 cached first second.
  destruct (search_hit_after_miss req t1 t1' t2 t2' srv results ttl
              Hmiss Hfirst Hresults Httl Ht2)
    as [Hentry Hsecond]. fold srv1 cached in Hentry, Hsecond.
  assert (Hfirst' : first = (Main.Success (Main.response_body results 0 "success"), srv1)).
  { subst first srv1. unfold endpoint_response.
    destruct (Main.search w env req t1 t1' srv) as [out srv']. simpl in Hfirst. by subst out. }
  split; [|split; [done|split; [done|split; [done|split; [done|split]]]]].
  - intros Hnone. unfold Main.search_ttl in Httl. rewrite Hnone in Httl. by simplify_eq.
  - subst second. unfold endpoint_response. rewrite Hsecond.
    unfold Main.respond. subst cached. simpl.
    by destruct (Main.validate_results w (Main.model_dump <$> results)).
  - intros Hcontent. rewrite Hfirst'. subst second. unfold endpoint_response.
    rewrite Hsecond. unfold Main.respond. simpl. subst cached.
    by rewrite (validate_results_model_dump results Hcontent
                  (search_miss_indexed _ _ _ _ _ Hfirst)).
Qed.

(** *** Authentication *)

Lemma auth_without_api_key path c :
  default "" (Main.API_KEY env) = "" → Main.auth env path c = Return ().
Proof. intros H. unfold Main.auth. by repeat case_decide. Qed.

Lemma auth_white_list path c :
  path = "/" ∨ path = "/v1/health" → Main.auth env path c = Return ().
Proof.
  intros H. unfold Main.auth. rewrite decide_True; [done|].
  rewrite !elem_of_cons. tauto.
Qed.

Lemma auth_with_api_key key c :
  Main.API_KEY env = Some key → key ≠ "" →
  Main.auth env "/v1/search" c
  = if decide (Main.scheme c = "Bearer" ∧ Main.credentials c = key)
    then Return () else Raise (HTTPException 403 "Forbidden").
Proof.
  intros Hk Hne. unfold Main.auth. rewrite Hk.
  destruct (decide ("/v1/search" ∈ ["/"; "/v1/health"])) as [Hin|_].
  { rewrite !elem_of_cons, elem_of_nil in Hin. destruct Hin as [?|[?|[]]]; discriminate. }
  change (default "" (Some key)) with key.
  rewrite (decide_False (P := key = "")) by done.
  destruct (decide (Main.scheme c = "Bearer" ∧ Main.credentials c = key)) as [[Hs Hc]|Hn].
  - rewrite decide_False; [done|]. intros [?|Hd]; [done|]. by rewrite Hc in Hd.
  - rewrite decide_True; [done|].
    destruct (decide (Main.scheme c = "Bearer")); [right|by left].
    intros [= ?]. by apply Hn.
Qed.

(** The routes of [index] and [health_check] do not depend on [auth]. *)
Lemma index_unauthenticated header request_body t_get t_set srv :
  Main.app w env (Main.mkRequest Main.GET "/" header request_body) t_get t_set srv
  = (Main.Text 200 ("Hello World" +:+ String "010" EmptyString), srv).
Proof. done. Qed.

Lemma health_check_unauthenticated header request_body t_get t_set srv :
  Main.app w env (Main.mkRequest Main.HEAD "/v1/health" header request_body) t_get t_set srv
  = (Main.Empty 200, srv).
Proof. done. Qed.

End MainTheorems.

(** C7. With no [API_KEY] in the environment, a [POST /v1/search] that carries no
    [Authorization] header is not served: [HTTPBearer], on which [auth] depends,
    answers it before the body of [auth], which would let it through, is run. *)
Theorem post_search_without_credentials_refused w google_api_key google_cx ttl model_name
    search_request t_get t_set srv :
  let env := Main.mkEnviron None google_api_key google_cx ttl model_name in
  Main.auth env "/v1/search" (Main.mkCredentials "" "") = Return () ∧
  Main.app w env (Main.mkRequest Main.POST "/v1/search" None search_request) t_get t_set srv
  = (Main.Failure (Main.not_authenticated_status w) "Not authenticated", srv).
Proof. done. Qed.

Lemma search_passes_over_unrecognised_engines_witness :
  let req := Main.mkSearchRequest "rocq" 10 false ["bing"; "yahoo"] in
  Forall (λ name, ¬ Main.recognised name) (Main.search_engines req) ∧
  Main.redis_get (Main.cache_key Fixture.world req) 0 (Main.redis Fixture.idle) = None ∧
  Main.search Fixture.world Fixture.environ req 0 5 Fixture.idle
  = (Return (Main.mkEnvelope (Main.Objects []) 0 "success"), Fixture.idle).
Proof.
  intros req.
  assert (Hall : Forall (λ name, ¬ Main.recognised name) (Main.search_engines req)).
  { repeat constructor; intros [H|H]; discriminate H. }
  assert (Hmiss : Main.redis_get (Main.cache_key Fixture.world req) 0
                    (Main.redis Fixture.idle) = None) by reflexivity.
  split; [exact Hall|]. split; [exact Hmiss|].
  exact (proj2 (proj2 (search_passes_over_unrecognised_engines Fixture.world
                         Fixture.environ req 0 5 Fixture.idle)) Hall Hmiss).
Defined.

Lemma repeated_request_answered_from_cache_witness :
  let req := Main.mkSearchRequest "rocq" 10 true ["google"] in
  let result := mkSearchResult "c" "https://c.example/" ""
                  (Some "summary of https://c.example/") "Google" (Some 0%Z) in
  let first := endpoint_response Fixture.world Fixture.environ req 0 2000 Fixture.idle in
  let second := endpoint_response Fixture.world Fixture.environ req 31999 32500 first.2 in
  first.1 = Main.Success (Main.response_body [result] 0 "success") ∧
  second = first.
Proof.
  intros req result first second.
  destruct (repeated_request_answered_from_cache Fixture.world Fixture.environ req
              0 2000 31999 32500 Fixture.idle [result] 30)
    as (_ & _ & _ & _ & Hfirst & _ & Hsame).
  - reflexivity.
  - vm_compute. reflexivity.
  - discriminate.
  - reflexivity.
  - lia.
  - split.
    + unfold first. by rewrite Hfirst.
    + unfold second.
      replace first.2
        with (Main.search Fixture.world Fixture.environ req 0 2000 Fixture.idle).2.
      * apply Hsame. repeat constructor. by eexists.
      * unfold first. by rewrite Hfirst.
Defined.

(** C6, as the claim has it, fails: a request whose answer is empty is not
    cached, and the same request made one second later queries the provider
    again. *)
Lemma empty_answer_not_cached_counterexample :
  let req := Main.mkSearchRequest "nothing" 10 false ["duckduckgo"] in
  let kw := mkKwargs (Some 10%Z) (Some false) in
  let first := Main.search Fixture.world Fixture.environ req 0 500 Fixture.idle in
  let second := Main.search Fixture.world Fixture.environ req 1000 1500 first.2 in
  first.1 = Return (Main.mkEnvelope (Main.Objects []) 0 "success") ∧
  Main.calls first.2 = [EvSearch "duckduckgo" "nothing" kw] ∧
  Main.redis_get (Main.cache_key Fixture.world req) 1000 (Main.redis first.2) = None ∧
  second.1 = Return (Main.mkEnvelope (Main.Objects []) 0 "success") ∧
  Main.calls second.2
  = [EvSearch "duckduckgo" "nothing" kw; EvSearch "duckduckgo" "nothing" kw].
Proof. vm_compute. done. Qed.

(** * Further properties of the code *)

(** ** search/search.py: the registry *)

Lemma dict_get_dict_set {V} k (v : V) d k' :
  dict_get k' (dict_set k v d) = if decide (k' = k) then Some v else dict_get k' d.
Proof.
  induction d as [|[k0 v0] d IH]; simpl.
  - by repeat case_decide.
  - destruct (decide (k = k0)) as [->|Hne]; simpl.
    + by repeat case_decide.
    + rewrite IH. repeat case_decide; congruence.
Qed.

Lemma dict_set_keys_eq {V} k (v : V) d :
  (dict_set k v d).*1 = if decide (k ∈ d.*1) then d.*1 else d.*1 ++ [k].
Proof.
  induction d as [|[k0 v0] d IH].
  - destruct (decide (k ∈ ([] : list (string * V)).*1)) as [Hin|_]; [|done].
    by apply elem_of_nil in Hin.
  - change (((k0, v0) :: d).*1) with (k0 :: d.*1).
    change (dict_set k v ((k0, v0) :: d))
      with (if decide (k = k0) then (k, v) :: d else (k0, v0) :: dict_set k v d).
    destruct (decide (k = k0)) as [->|Hne].
    + destruct (decide (k0 ∈ k0 :: d.*1)) as [_|Hn]; [done|]. destruct Hn. by left.
    + rewrite fmap_cons, IH. simpl.
      destruct (decide (k ∈ d.*1)) as [Hin|Hnin].
      * destruct (decide (k ∈ k0 :: d.*1)) as [_|Hn]; [done|]. destruct Hn. by right.
      * destruct (decide (k ∈ k0 :: d.*1)) as [[?|?]%elem_of_cons|_]; done.
Qed.

(** [add_engine] then lookup: the name just added maps to the engine just given,
    every other name maps to what it mapped to, and no object is touched. *)
Theorem add_engine_lookup name engine st name' :
  dict_get name' (engines (add_engine name engine st))
  = (if decide (name' = name) then Some engine else dict_get name' (engines st)) ∧
  heap (add_engine name engine st) = heap st.
Proof. split; [apply dict_get_dict_set|done]. Qed.

Lemma add_engine_keys name engine st :
  (engines (add_engine name engine st)).*1
  = if decide (name ∈ (engines st).*1) then (engines st).*1
    else (engines st).*1 ++ [name].
Proof. apply dict_set_keys_eq. Qed.

(** [add_engine] under a name that is registered keeps the order and the number
    of the names; under a new name it puts the name last. *)
Theorem add_engine_names name engine st :
  (engines (add_engine name engine st)).*1
  = if decide (name ∈ (engines st).*1) then (engines st).*1
    else (engines st).*1 ++ [name].
Proof. apply dict_set_keys_eq. Qed.

(** However the registry of a new service is filled, no name is in it twice. *)
Theorem add_engine_names_NoDup (additions : list (string * SearchEngine)) :
  NoDup (engines (foldl (λ st item, add_engine item.1 item.2 st) init additions)).*1.
Proof.
  assert (H : ∀ st, NoDup (engines st).*1 →
    NoDup (engines (foldl (λ st item, add_engine item.1 item.2 st) st additions)).*1).
  { induction additions as [|[name engine] additions IH]; intros st Hst; [done|].
    simpl. apply IH. rewrite add_engine_keys. case_decide; [done|].
    apply NoDup_app. split; [done|]. split; [|apply NoDup_singleton].
    intros x Hx ->%list_elem_of_singleton. done. }
  apply H. constructor.
Qed.

(** ** search/search.py: the methods *)

Section MoreSearchTheorems.

Variable fetcher : ContentFetcher.
Variable llm_cli : LLMClient.

Local Abbreviation enrich := (enrich fetcher llm_cli).

(** [search] never raises, leaves the registry as it is and the objects that
    were there untouched; the references it returns are distinct and all denote
    objects made during the call. *)
Theorem search_frame query kw st :
  let run := search fetcher llm_cli query kw st in
  ∃ rs,
    outcome run = Return rs ∧
    engines (final run) = engines st ∧
    NoDup rs ∧
    (∀ r, r ∈ rs → length (heap st) ≤ r < length (heap (final run))) ∧
    (∀ r, r < length (heap st) → heap (final run) !! r = heap st !! r).
Proof.
  intros run. subst run. rewrite search_run. unfold outcome, final. simpl.
  eexists. split; [done|]. split; [done|]. split; [apply NoDup_seq|]. split.
  - intros r Hr%elem_of_seq. rewrite length_app. lia.
  - intros r Hr. by rewrite lookup_app_l.
Qed.

(** The number of results of [search] is the sum of the lengths of the answers of
    the engines that answered, with or without enrichment. *)
Theorem search_result_count query kw st :
  ∃ rs,
    outcome (search fetcher llm_cli query kw st) = Return rs ∧
    length rs
    = sum_list ((λ item, match item.2 query kw with
                         | Return l => length l
                         | Raise _ => 0
                         end) <$> engines st).
Proof.
  rewrite search_run. unfold outcome. simpl. eexists. split; [done|].
  rewrite length_seq. induction (engines st) as [|item items IH]; [done|].
  rewrite bind_cons, length_app, IH, fmap_cons.
  by rewrite (contribution_length fetcher llm_cli).
Qed.

Lemma task_stores_first_choice r o st raw_content c reply others :
  heap st !! r = Some o →
  fetcher (link o) = Return raw_content →
  llm_cli [ mkMessage "system" system_prompt;
            mkMessage "user" (clean_text raw_content) ] = Return c →
  choices c = reply :: others →
  let run := _fetch_content_by_search_result fetcher llm_cli r st in
  outcome run = Return r ∧
  heap (final run) = <[r := set_content reply o]> (heap st) ∧
  engines (final run) = engines st ∧
  events run = [].
Proof.
  intros Ho Hf Hc Hch run. subst run.
  unfold _fetch_content_by_search_result, try_except, mbind, M_bind, getattr, await.
  rewrite Ho. simpl. rewrite Hf. simpl. rewrite Hc. simpl. rewrite Hch. simpl.
  unfold outcome, final, events. simpl. repeat split.
  apply list_eq. intros j. rewrite list_lookup_alter, list_lookup_insert.
  pose proof (lookup_lt_Some _ _ _ Ho) as Hlt.
  destruct (decide (r = j)) as [<-|Hne].
  - destruct (decide (r = r ∧ r < length (heap st))) as [_|Hn]; [by rewrite Ho|].
    by destruct Hn.
  - destruct (decide (r = j ∧ r < length (heap st))) as [[? _]|_]; done.
Qed.

(** When the page is fetched and the completion answers with at least one
    choice, the task stores the content of the first choice in [content] of its
    own object; every other field and every other object stays as it was. *)
Theorem fetch_content_by_search_result_success r o st raw_content c reply others :
  heap st !! r = Some o →
  fetcher (link o) = Return raw_content →
  llm_cli [ mkMessage "system" system_prompt;
            mkMessage "user" (clean_text raw_content) ] = Return c →
  choices c = reply :: others →
  let run := _fetch_content_by_search_result fetcher llm_cli r st in
  outcome run = Return r ∧
  heap (final run) = <[r := set_content reply o]> (heap st) ∧
  engines (final run) = engines st ∧
  events run = [].
Proof. apply task_stores_first_choice. Qed.

(** A completion without choices: [choices[0]] raises [IndexError], the task
    catches it and the result is returned as it was. *)
Theorem fetch_content_by_search_result_no_choice r o st raw_content c :
  heap st !! r = Some o →
  fetcher (link o) = Return raw_content →
  llm_cli [ mkMessage "system" system_prompt;
            mkMessage "user" (clean_text raw_content) ] = Return c →
  choices c = [] →
  _fetch_content_by_search_result fetcher llm_cli r st = (Return r, st, []).
Proof.
  intros Ho Hf Hc Hch.
  unfold _fetch_content_by_search_result, try_except, mbind, M_bind, getattr, await.
  rewrite Ho. simpl. rewrite Hf. simpl. rewrite Hc. simpl. by rewrite Hch.
Qed.

Lemma dict_get_Some {V} name (d : list (string * V)) :
  name ∈ d.*1 → ∃ v, dict_get name d = Some v.
Proof.
  induction d as [|[k v] d IH]; [by intros ?%elem_of_nil|].
  rewrite fmap_cons, elem_of_cons. simpl. intros [->|Hin].
  - rewrite decide_True by done. eauto.
  - case_decide; eauto.
Qed.

(** [search_by_engine] with a registered name calls [search] of the engine
    without awaiting it: the engine is not queried. Without [fetch_content] the
    caller gets the coroutine; with it, [_fetch_content] cannot iterate over the
    coroutine and the caller gets an empty list. *)
Theorem search_by_engine_never_queries engine_name query kw st :
  engine_name ∈ (engines st).*1 →
  search_by_engine fetcher llm_cli engine_name query kw st
  = (Return (if get_fetch_content kw then RList []
             else RCoroutine engine_name query kw), st, []).
Proof.
  intros [engine He]%dict_get_Some.
  unfold search_by_engine, get_state, mbind, M_bind. rewrite He.
  by destruct (get_fetch_content kw).
Qed.

Lemma bind_contribution_succeed_enriched query kw items answers :
  get_fetch_content kw = true →
  Forall2 (λ item l, item.2 query kw = Return l) items answers →
  items ≫= contribution fetcher llm_cli query kw
  = concat ((λ l, enrich <$> numbered l) <$> answers).
Proof.
  intros Hkw. induction 1 as [|item l items answers Hitem _ IH]; [done|].
  rewrite bind_cons, IH, fmap_cons. simpl in Hitem.
  unfold contribution at 1. by rewrite Hitem, Hkw.
Qed.

(** When every registered engine answers, [search] with [fetch_content] returns
    the engines' results in the order of the registry. The result that an engine
    gave at place [i] of its answer is found after the results of the engines
    before it and carries the index [i]; its [content] is the reply its task
    obtained, or the [content] the engine gave it if the task failed, and it is
    otherwise as the engine gave it. *)
Theorem search_numbers_and_enriches query kw st answers :
  get_fetch_content kw = true →
  Forall2 (λ item l, item.2 query kw = Return l) (engines st) answers →
  ∃ rs,
    outcome (search fetcher llm_cli query kw st) = Return rs ∧
    deref (heap (final (search fetcher llm_cli query kw st))) rs
    = Some <$> concat ((λ l, enrich <$> numbered l) <$> answers) ∧
    length rs = sum_list (length <$> answers) ∧
    ∀ j l i o, answers !! j = Some l → l !! i = Some o →
      ∃ r o',
        rs !! (sum_list (length <$> take j answers) + i) = Some r ∧
        heap (final (search fetcher llm_cli query kw st)) !! r = Some o' ∧
        index o' = Some (Z.of_nat i) ∧
        title o' = title o ∧ link o' = link o ∧ snippet o' = snippet o ∧
        source_engine o' = source_engine o ∧
        content o' = match enrichment fetcher llm_cli (link o) with
                     | Return reply => reply
                     | Raise _ => content o
                     end.
Proof.
  intros Hkw Hall. rewrite search_run. unfold outcome, final. simpl.
  rewrite (bind_contribution_succeed_enriched _ _ _ _ Hkw Hall).
  assert (Hlen : ∀ l : list SearchResult, length (enrich <$> numbered l) = length l).
  { intros l. by rewrite length_fmap, numbered_length. }
  eexists. split; [done|]. split; [apply deref_alloc|]. split.
  - rewrite length_seq, length_concat, <- list_fmap_compose.
    f_equal. apply list_fmap_ext. intros _ l _. apply Hlen.
  - intros j l i o Hl Ho.
    destruct (deref_lookup _ _ _ (sum_list (length <$> take j answers) + i)
                (enrich (set_index (Some (Z.of_nat i)) o))
                (deref_alloc (heap st) (concat ((λ l, enrich <$> numbered l) <$> answers))))
      as (r & Hr & Hh).
    { apply (lookup_concat_fmap_offset (λ l, enrich <$> numbered l) _ j l); [done..|].
      by rewrite list_lookup_fmap, numbered_lookup, Ho. }
    exists r, (enrich (set_index (Some (Z.of_nat i)) o)).
    split; [done|]. split; [done|].
    unfold Search.enrich. simpl. by destruct (enrichment fetcher llm_cli (link o)).
Qed.

End MoreSearchTheorems.

Lemma fetch_content_by_search_result_success_witness :
  let o := Fixture.hit "a" "https://a.example/" "Google" in
  let st := mkSt [] [o] in
  heap (final (_fetch_content_by_search_result Fixture.fetcher Fixture.llm_cli 0 st))
  = [set_content (Some "summary of https://a.example/") o].
Proof.
  intros o st.
  exact (proj1 (proj2 (fetch_content_by_search_result_success Fixture.fetcher
    Fixture.llm_cli 0 o st
    (mkFetchedContent "https://a.example/" "<p>https://a.example/</p>"
       "https://a.example/" 200 "")
    (mkChatCompletion [Some "summary of https://a.example/"])
    (Some "summary of https://a.example/") []
    eq_refl eq_refl eq_refl eq_refl))).
Defined.

Lemma fetch_content_by_search_result_no_choice_witness :
  let o := Fixture.hit "a" "https://a.example/" "Google" in
  let st := mkSt [] [o] in
  _fetch_content_by_search_result Fixture.fetcher (λ _, Return (mkChatCompletion [])) 0 st
  = (Return 0, st, []).
Proof.
  intros o st.
  exact (fetch_content_by_search_result_no_choice Fixture.fetcher
    (λ _, Return (mkChatCompletion [])) 0 o st
    (mkFetchedContent "https://a.example/" "<p>https://a.example/</p>"
       "https://a.example/" 200 "")
    (mkChatCompletion []) eq_refl eq_refl eq_refl eq_refl).
Defined.

Lemma search_by_engine_never_queries_witness :
  search_by_engine Fixture.fetcher Fixture.llm_cli "google" "rocq" Fixture.enriched
    Fixture.two_engines
  = (Return (RList []), Fixture.two_engines, []).
Proof.
  apply (search_by_engine_never_queries Fixture.fetcher Fixture.llm_cli
           "google" "rocq" Fixture.enriched Fixture.two_engines).
  vm_compute. right. left.
Defined.

Lemma search_numbers_and_enriches_witness :
  ∃ rs,
    outcome (search Fixture.fetcher Fixture.llm_cli "rocq" Fixture.enriched
               Fixture.two_engines) = Return rs ∧
    deref (heap (final (search Fixture.fetcher Fixture.llm_cli "rocq" Fixture.enriched
                          Fixture.two_engines))) rs
    = Some <$> concat ((λ l, Search.enrich Fixture.fetcher Fixture.llm_cli <$> numbered l) <$>
        [ [ Fixture.hit "a" "https://a.example/" "DuckDuckGo";
            Fixture.hit "b" "https://b.example/" "DuckDuckGo" ];
          [ Fixture.hit "c" "https://c.example/" "Google" ] ]) ∧
    ∃ r o',
      rs !! 2 = Some r ∧
      heap (final (search Fixture.fetcher Fixture.llm_cli "rocq" Fixture.enriched
                     Fixture.two_engines)) !! r = Some o' ∧
      index o' = Some 0%Z ∧ title o' = "c" ∧ source_engine o' = "Google" ∧
      content o' = Some "summary of https://c.example/".
Proof.
  destruct (search_numbers_and_enriches Fixture.fetcher Fixture.llm_cli
              "rocq" Fixture.enriched Fixture.two_engines
              [ [ Fixture.hit "a" "https://a.example/" "DuckDuckGo";
                  Fixture.hit "b" "https://b.example/" "DuckDuckGo" ];
                [ Fixture.hit "c" "https://c.example/" "Google" ] ])
    as (rs & Hout & Hobjects & _ & Hplace); [reflexivity|vm_compute; repeat constructor|].
  exists rs. split; [exact Hout|]. split; [exact Hobjects|].
  destruct (Hplace 1 [Fixture.hit "c" "https://c.example/" "Google"] 0
              (Fixture.hit "c" "https://c.example/" "Google") eq_refl eq_refl)
    as (r & o' & Hr & Ho' & Hi & Ht & _ & _ & Hs & Hc).
  exists r, o'. repeat split; assumption.
Defined.

Lemma queried_search fetcher llm_cli query kw st :
  queried (events (search fetcher llm_cli query kw st)) = (engines st).*1.
Proof.
  rewrite search_run. unfold events. simpl.
  induction (engines st) as [|item items IH]; [done|].
  rewrite bind_cons, fmap_cons. unfold queried in *. rewrite omap_app, IH.
  unfold step_events. simpl.
  by destruct (item.2 query kw); [destruct (get_fetch_content kw)|].
Qed.

(** [search] awaits the search of every registered engine once, in the order of
    the registry, whether engines before it answered, raised or had their
    results enriched. *)
Theorem search_queries_every_engine_once fetcher llm_cli query kw st :
  queried (events (search fetcher llm_cli query kw st)) = (engines st).*1.
Proof. apply queried_search. Qed.

(** ** main.py: the endpoint and the cache *)

Section MoreMainTheorems.

Variable w : Main.World.
Variable env : Main.Environ.

(** The run of the orchestrator that the endpoint starts for a request, once the
    engines are registered. *)
Local Abbreviation run_of req o :=
  (Search.search (Main.RequestsHtmlFetcher w)
     (Main.GPTClient w (default "gpt-4o-mini" (Main.MODEL_NAME env)))
     (Main.str_strip w (Main.query req))
     (mkKwargs (Some (Main.max_results req)) (Some (Main.fetch_content req))) o).

(** An entry whose time has passed is not read, and the request is handled as
    one that finds nothing under its key: every registered provider is queried
    again, once, the response carries what the orchestrator returns this time,
    and a list of results that is not empty replaces the entry, with a new time
    to live. *)
Theorem cache_entry_expires req t2 t2' srv1 stored expires o ttl :
  Main.entries (Main.redis srv1) !! Main.cache_key w req = Some (stored, expires) →
  (expires ≤ t2)%Z →
  Main.register_all w env init (Main.search_engines req) = Return o →
  Main.search_ttl w env = Return ttl →
  (0 < ttl)%Z →
  let second := Main.search w env req t2 t2' srv1 in
  ∃ rs results,
    outcome (run_of req o) = Return rs ∧
    results = omap (heap (final (run_of req o)) !!.) rs ∧
    Main.redis_get (Main.cache_key w req) t2 (Main.redis srv1) = None ∧
    second.1 = Return (Main.mkEnvelope (Main.Objects results) 0 "success") ∧
    Main.calls second.2 = Main.calls srv1 ++ events (run_of req o) ∧
    queried (events (run_of req o)) = (engines o).*1 ∧
    Main.entries (Main.redis second.2) !! Main.cache_key w req
    = Some (if decide (results = []) then (stored, expires)
            else (Main.JArr (Main.model_dump <$> results), (t2' + 1000 * ttl)%Z)).
Proof.
  intros Hentry Hexp Hreg Httl Hpos second.
  assert (Hmiss : Main.redis_get (Main.cache_key w req) t2 (Main.redis srv1) = None).
  { unfold Main.redis_get. rewrite Hentry. by rewrite (proj2 (Z.ltb_ge _ _) Hexp). }
  subst second. unfold Main.search. rewrite Hmiss, Hreg, Httl.
  unfold Main.redis_setex. rewrite (proj2 (Z.ltb_lt _ _) Hpos).
  rewrite queried_search, search_run. unfold outcome, final, events. simpl.
  rewrite length_seq.
  match goal with |- context [heap o ++ ?l'] => set (l := l') end.
  exists (seq (length (heap o)) (length l)), l.
  rewrite !omap_lookup_alloc. clearbody l.
  split; [done|]. split; [done|]. split; [done|].
  destruct l as [|r l].
  - by rewrite decide_True.
  - rewrite decide_False by done. simpl. repeat split. apply lookup_insert_eq.
Qed.

(** A stored answer in which a result has no [content] is read by the endpoint
    but does not pass the validation of the response: the first request is
    answered with its results, and the same request, made before the time to
    live has passed, is answered with an internal server error, although no
    provider is called for it and the cache is left as it is. *)
Theorem cached_answer_without_content_refused req t1 t1' t2 t2' srv results ttl :
  Main.redis_get (Main.cache_key w req) t1 (Main.redis srv) = None →
  (Main.search w env req t1 t1' srv).1
    = Return (Main.mkEnvelope (Main.Objects results) 0 "success") →
  Exists (λ r, content r = None) results →
  Main.search_ttl w env = Return ttl →
  (t1' ≤ t2 < t1' + 1000 * ttl)%Z →
  let first := endpoint_response w env req t1 t1' srv in
  let second := endpoint_response w env req t2 t2' first.2 in
  first.1 = Main.Success (Main.response_body results 0 "success") ∧
  second = (Main.Failure 500 "Internal Server Error", first.2).
Proof.
  intros Hmiss Hfirst Hnone Httl Ht2 first second.
  assert (Hresults : results ≠ []) by (intros ->; by apply Exists_nil in Hnone).
  destruct (search_hit_after_miss w env req t1 t1' t2 t2' srv results ttl
              Hmiss Hfirst Hresults Httl Ht2) as [_ Hsecond].
  assert (Hfirst' : first = (Main.Success (Main.response_body results 0 "success"),
                             (Main.search w env req t1 t1' srv).2)).
  { subst first. unfold endpoint_response.
    destruct (Main.search w env req t1 t1' srv) as [out srv']. simpl in Hfirst. by subst out. }
  split; [by rewrite Hfirst'|].
  subst second. rewrite Hfirst'. simpl. unfold endpoint_response. rewrite Hsecond.
  unfold Main.respond. simpl.
  by destruct (validate_results_no_content w results Hnone) as [e ->].
Qed.

(** Whatever the request and its outcome, the endpoint changes the cache under
    the key of the request only, and only adds to the calls made so far. *)
Theorem search_writes_own_key_only req t_get t_set srv :
  let srv' := (Main.search w env req t_get t_set srv).2 in
  (∀ key, key ≠ Main.cache_key w req →
     Main.entries (Main.redis srv') !! key = Main.entries (Main.redis srv) !! key) ∧
  ∃ evs, Main.calls srv' = Main.calls srv ++ evs.
Proof.
  intros srv'. subst srv'. unfold Main.search.
  assert (Hnil : ∃ evs, Main.calls srv = Main.calls srv ++ evs)
    by (exists []; by rewrite app_nil_r).
  destruct (Main.redis_get _ _ _); [done|].
  destruct (Main.register_all w env init _) as [o|]; [|done].
  destruct (outcome (run_of req o)) as [rs|]; simpl; [|by eauto].
  destruct (0 <? length rs)%nat; simpl; [|by eauto].
  destruct (Main.search_ttl w env) as [ttl|]; simpl; [|by eauto].
  unfold Main.redis_setex. destruct (0 <? ttl)%Z; simpl; [|by eauto].
  split; [|by eauto]. intros key Hkey. by rewrite lookup_insert_ne.
Qed.

Lemma register_all_without_google_key names : ∀ o,
  Main.GOOGLE_API_KEY env = None → "google" ∈ names →
  Main.register_all w env o names
  = Raise (ValidationError "api_key: Input should be a valid string").
Proof.
  induction names as [|name names IH]; intros o Hkey Hin; [by apply elem_of_nil in Hin|].
  simpl. unfold Main.register at 1.
  destruct (decide (name = "google")) as [->|Hne].
  - by rewrite Hkey.
  - apply elem_of_cons in Hin as [?|Hin]; [done|].
    destruct (decide (name = "duckduckgo")); by apply IH.
Qed.

(** A request that names [google] while [GOOGLE_API_KEY] is not set, and is not
    answered from the cache, makes the endpoint raise when the engines are
    registered: no provider is queried, not even one named before [google], and
    nothing is cached. *)
Theorem search_google_without_api_key req t_get t_set srv :
  Main.GOOGLE_API_KEY env = None →
  "google" ∈ Main.search_engines req →
  Main.redis_get (Main.cache_key w req) t_get (Main.redis srv) = None →
  Main.search w env req t_get t_set srv
  = (Raise (ValidationError "api_key: Input should be a valid string"), srv).
Proof.
  intros Hkey Hin Hmiss. unfold Main.search.
  by rewrite Hmiss, (register_all_without_google_key _ _ Hkey Hin).
Qed.

Lemma register_names o o' engine name :
  Main.register w env o engine = Return o' →
  name ∈ (engines o').*1 →
  name ∈ (engines o).*1 ∨ (name = engine ∧ Main.recognised name).
Proof.
  unfold Main.register, Main.recognised.
  destruct (decide (engine = "google")) as [->|?].
  - destruct (Main.GOOGLE_API_KEY env); [|done]. intros [= <-].
    rewrite add_engine_keys. case_decide; [by left|].
    rewrite elem_of_app, list_elem_of_singleton. intros [?| ->]; auto.
  - destruct (decide (engine = "duckduckgo")) as [->|?]; intros [= <-]; [|by left].
    rewrite add_engine_keys. case_decide; [by left|].
    rewrite elem_of_app, list_elem_of_singleton. intros [?| ->]; auto.
Qed.

Lemma register_NoDup o o' engine :
  Main.register w env o engine = Return o' →
  NoDup (engines o).*1 → NoDup (engines o').*1.
Proof.
  assert (Hadd : ∀ name e, NoDup (engines o).*1 → NoDup (engines (add_engine name e o)).*1).
  { intros name e Hnd. rewrite add_engine_keys. case_decide; [done|].
    apply NoDup_app. split; [done|]. split; [|apply NoDup_singleton].
    intros x Hx ->%list_elem_of_singleton. done. }
  unfold Main.register. repeat case_decide; [destruct (Main.GOOGLE_API_KEY env)|..];
    intros; simplify_eq; auto.
Qed.

Lemma register_all_names names : ∀ o o' name,
  Main.register_all w env o names = Return o' →
  name ∈ (engines o').*1 →
  name ∈ (engines o).*1 ∨ (name ∈ names ∧ Main.recognised name).
Proof.
  induction names as [|engine names IH]; intros o o' name; simpl.
  - intros [= <-]. by left.
  - destruct (Main.register w env o engine) as [o1|] eqn:E; [|done].
    intros H Hin. destruct (IH _ _ _ H Hin) as [Hin1|[? ?]].
    + destruct (register_names _ _ _ _ E Hin1) as [?|[-> ?]]; [by left|].
      right. split; [by left|done].
    + right. split; [by right|done].
Qed.

Lemma register_all_NoDup names : ∀ o o',
  Main.register_all w env o names = Return o' →
  NoDup (engines o).*1 → NoDup (engines o').*1.
Proof.
  induction names as [|engine names IH]; intros o o'; simpl.
  - by intros [= <-].
  - destruct (Main.register w env o engine) as [o1|] eqn:E; [|done].
    intros H Hnd. apply (IH _ _ H). by apply (register_NoDup _ _ _ E).
Qed.

(** In one request every provider is queried once at most, however often
    [search_engines] names it, and only providers that the request names and the
    loop recognises are queried. *)
Theorem search_queries_each_provider_once req t_get t_set srv :
  ∃ evs,
    Main.calls (Main.search w env req t_get t_set srv).2 = Main.calls srv ++ evs ∧
    NoDup (queried evs) ∧
    ∀ name, name ∈ queried evs →
      name ∈ Main.search_engines req ∧ (name = "google" ∨ name = "duckduckgo").
Proof.
  assert (Hnil : ∃ evs, Main.calls srv = Main.calls srv ++ evs ∧ NoDup (queried evs) ∧
    ∀ name, name ∈ queried evs →
      name ∈ Main.search_engines req ∧ (name = "google" ∨ name = "duckduckgo")).
  { exists []. rewrite app_nil_r. split; [done|]. split; [constructor|].
    by intros name ?%elem_of_nil. }
  unfold Main.search.
  destruct (Main.redis_get _ _ _); [done|].
  destruct (Main.register_all w env init _) as [o|] eqn:Hreg; [|done].
  assert (Hrun : ∃ evs,
    Main.calls srv ++ events (run_of req o) = Main.calls srv ++ evs ∧ NoDup (queried evs) ∧
    ∀ name, name ∈ queried evs →
      name ∈ Main.search_engines req ∧ (name = "google" ∨ name = "duckduckgo")).
  { exists (events (run_of req o)). split; [done|].
    rewrite queried_search. split.
    - apply (register_all_NoDup _ _ _ Hreg). constructor.
    - intros name Hin.
      destruct (register_all_names _ _ _ _ Hreg Hin) as [Hin0|?]; [|done].
      by apply elem_of_nil in Hin0. }
  destruct (outcome (run_of req o)) as [rs|]; simpl; [|done].
  destruct (0 <? length rs)%nat; simpl; [|done].
  destruct (Main.search_ttl w env) as [ttl|]; simpl; [|done].
  unfold Main.redis_setex. by destruct (0 <? ttl)%Z.
Qed.

(** [SEARCH_TTL] is read after the engines have answered, and only when there are
    results: a value that [int] or Redis refuses makes such a request fail once
    the providers have been queried, and nothing is cached. *)
Theorem search_with_unusable_ttl req t_get t_set srv o rs e :
  Main.redis_get (Main.cache_key w req) t_get (Main.redis srv) = None →
  Main.register_all w env init (Main.search_engines req) = Return o →
  outcome (run_of req o) = Return rs →
  rs ≠ [] →
  Main.search_ttl w env = Raise e ∨
  (∃ ttl, Main.search_ttl w env = Return ttl ∧ (ttl ≤ 0)%Z ∧
          e = ResponseError "invalid expire time in 'setex' command") →
  Main.search w env req t_get t_set srv
  = (Raise e, Main.mkServer (Main.redis srv) (Main.calls srv ++ events (run_of req o))).
Proof.
  intros Hmiss Hreg Hout Hrs Hbad. unfold Main.search. rewrite Hmiss, Hreg, Hout.
  destruct rs as [|r rs]; [done|]. simpl.
  destruct Hbad as [->|(ttl & -> & Hle & ->)]; [done|].
  unfold Main.redis_setex. by rewrite (proj2 (Z.ltb_ge _ _) Hle).
Qed.

End MoreMainTheorems.

(** ** main.py: authentication *)

Lemma partition_space_inv s : ∀ a b,
  Main.partition_space s = (a, b) → b ≠ "" → s = a +:+ " " +:+ b.
Proof.
  induction s as [|c s IH]; intros a b; simpl.
  - by intros [= <- <-].
  - destruct (decide (c = " "%char)) as [->|Hc].
    + by intros [= <- <-].
    + destruct (Main.partition_space s) as [a' b'] eqn:E.
      intros [= <- <-] Hb.
      change (String c s = String c (a' +:+ " " +:+ b')). f_equal. by apply IH.
Qed.

Lemma lower_ascii_space c : Main.lower_ascii c = " "%char → c = " "%char.
Proof.
  unfold Main.lower_ascii. intros H.
  destruct (_ && _) eqn:Hrange; [|done].
  apply andb_prop in Hrange as [H1%Nat.leb_le H2%Nat.leb_le].
  apply (f_equal nat_of_ascii) in H.
  rewrite nat_ascii_embedding in H by lia.
  change (nat_of_ascii " ") with 32 in H. lia.
Qed.

Lemma partition_space_scheme s rest :
  Main.partition_space (Main.lower s) = (Main.lower s, "") →
  Main.partition_space (s +:+ String " " rest) = (s, rest).
Proof.
  induction s as [|c s IH]; simpl.
  - intros _. by destruct (decide (" "%char = " "%char)).
  - destruct (decide (Main.lower_ascii c = " "%char)) as [|Hl]; [done|].
    destruct (Main.partition_space (Main.lower s)) as [a b] eqn:E.
    intros [= -> ->].
    destruct (decide (c = " "%char)) as [->|_]; [done|].
    by rewrite IH.
Qed.

Section MoreAuthTheorems.

Variable w : Main.World.
Variable env : Main.Environ.

(** With an [API_KEY], [POST /v1/search] reaches the endpoint when the
    [Authorization] header is [Bearer], one space and the key, and with no other
    header: any other is answered with 403, or with the status of [HTTPBearer];
    the endpoint is not run and the server is left as it is. *)
Theorem search_route_with_api_key key header search_request t_get t_set srv :
  Main.API_KEY env = Some key →
  key ≠ "" →
  let req := Main.mkRequest Main.POST "/v1/search" (Some header) (Some search_request) in
  (header = "Bearer " +:+ key →
   Main.app w env req t_get t_set srv
   = endpoint_response w env search_request t_get t_set srv) ∧
  (header ≠ "Bearer " +:+ key →
   ∃ status detail,
     Main.app w env req t_get t_set srv = (Main.Failure status detail, srv) ∧
     (status = 403%Z ∨ status = Main.not_authenticated_status w)).
Proof.
  intros Hkey Hne req. subst req. split.
  - intros ->. unfold Main.app, Main.HTTPBearer. simpl.
    rewrite decide_False by (intros [?|[?|?]]; done).
    simpl. rewrite (auth_with_api_key env key _ Hkey Hne). simpl.
    by rewrite decide_True.
  - intros Hh. unfold Main.app, Main.HTTPBearer. simpl.
    destruct (Main.partition_space header) as [sch cred] eqn:Hp.
    destruct (decide (header = "" ∨ sch = "" ∨ cred = "")) as [|Hok]; simpl; [by eauto|].
    destruct (decide (Main.lower sch = "bearer")); simpl; [|by eauto].
    rewrite (auth_with_api_key env key _ Hkey Hne). simpl.
    destruct (decide (sch = "Bearer" ∧ cred = key)) as [[-> ->]|]; simpl; [|by eauto].
    destruct Hh. apply (partition_space_inv _ _ _ Hp). tauto.
Qed.

(** Without an [API_KEY], or with an empty one, the token is not looked at:
    [POST /v1/search] reaches the endpoint with any header made of the scheme
    bearer, in upper or lower case, one space and credentials that are not
    empty. *)
Theorem search_route_without_api_key sch token search_request t_get t_set srv :
  default "" (Main.API_KEY env) = "" →
  Main.lower sch = "bearer" →
  token ≠ "" →
  Main.app w env
    (Main.mkRequest Main.POST "/v1/search" (Some (sch +:+ " " +:+ token)) (Some search_request))
    t_get t_set srv
  = endpoint_response w env search_request t_get t_set srv.
Proof.
  intros Hkey Hsch Htoken.
  assert (Hp : Main.partition_space (sch +:+ " " +:+ token) = (sch, token)).
  { apply partition_space_scheme. by rewrite Hsch. }
  assert (Hh : sch +:+ " " +:+ token ≠ "") by by destruct sch.
  remember (sch +:+ " " +:+ token) as header eqn:Heq. clear Heq.
  unfold Main.app, Main.HTTPBearer. simpl. rewrite Hp.
  rewrite decide_False.
  2:{ intros [?|[->|?]]; done. }
  rewrite decide_True by done. simpl.
  by rewrite (auth_without_api_key env _ _ Hkey).
Qed.

End MoreAuthTheorems.

(** ** The further properties at concrete inputs *)

Lemma cache_entry_expires_witness :
  let result := mkSearchResult "c" "https://c.example/" "" None "Google" (Some 0%Z) in
  let srv1 := (Main.search Fixture.world Fixture.environ Sample.google_request 0 2000
                 Fixture.idle).2 in
  let second := Main.search Fixture.world Fixture.environ Sample.google_request 32000 32500
                  srv1 in
  second.1 = Return (Main.mkEnvelope (Main.Objects [result]) 0 "success") ∧
  queried (Main.calls second.2) = ["google"; "google"] ∧
  Main.entries (Main.redis second.2) !! Main.cache_key Fixture.world Sample.google_request
  = Some (Main.JArr (Main.model_dump <$> [result]), 62500%Z).
Proof.
  intros result srv1 second.
  destruct (cache_entry_expires Fixture.world Fixture.environ Sample.google_request
              32000 32500 srv1 (Main.JArr (Main.model_dump <$> [result])) 32000
              (add_engine "google"
                 (Fixture.GoogleSearch
                    (mkSearchEngineConfig "google-key" "" [("cx", Some "cx")]))
                 init)
              30)
    as (rs & results & Hrs & Hresults & _ & Hout & Hcalls & _ & Hentry).
  - vm_compute. reflexivity.
  - lia.
  - reflexivity.
  - reflexivity.
  - lia.
  - assert (Hrs' : rs = [0]) by (vm_compute in Hrs; by injection Hrs).
    subst rs. vm_compute in Hresults. subst results.
    fold second in Hout, Hcalls, Hentry.
    split; [exact Hout|]. split.
    + rewrite Hcalls. vm_compute. reflexivity.
    + rewrite Hentry. reflexivity.
Defined.

Lemma cached_answer_without_content_refused_witness :
  let result := mkSearchResult "c" "https://c.example/" "" None "Google" (Some 0%Z) in
  let first := endpoint_response Fixture.world Fixture.environ Sample.google_request 0 2000
                 Fixture.idle in
  let second := endpoint_response Fixture.world Fixture.environ Sample.google_request
                  31999 32500 first.2 in
  first.1 = Main.Success (Main.response_body [result] 0 "success") ∧
  second = (Main.Failure 500 "Internal Server Error", first.2).
Proof.
  intros result.
  apply (cached_answer_without_content_refused Fixture.world Fixture.environ
           Sample.google_request 0 2000 31999 32500 Fixture.idle [result] 30).
  - reflexivity.
  - vm_compute. reflexivity.
  - by left.
  - reflexivity.
  - lia.
Defined.

Lemma search_google_without_api_key_witness :
  Main.search Fixture.world Sample.no_google_key Sample.both_request 0 5 Fixture.idle
  = (Raise (ValidationError "api_key: Input should be a valid string"), Fixture.idle).
Proof.
  apply (search_google_without_api_key Fixture.world Sample.no_google_key
           Sample.both_request 0 5 Fixture.idle).
  - reflexivity.
  - right. left.
  - reflexivity.
Defined.

Lemma search_with_unusable_ttl_witness :
  (Main.search Fixture.world Sample.bad_ttl Sample.google_request 0 5 Fixture.idle).1
  = Raise (ValueError "invalid literal").
Proof.
  refine (f_equal fst (search_with_unusable_ttl Fixture.world Sample.bad_ttl
            Sample.google_request 0 5 Fixture.idle
            (add_engine "google"
               (Fixture.GoogleSearch (mkSearchEngineConfig "google-key" "" [("cx", Some "cx")]))
               init)
            [0] (ValueError "invalid literal") _ _ _ _ _)).
  - reflexivity.
  - reflexivity.
  - reflexivity.
  - discriminate.
  - left. reflexivity.
Defined.

Lemma search_route_with_api_key_witness :
  Main.app Fixture.world Sample.locked
    (Main.mkRequest Main.POST "/v1/search" (Some "Bearer secret") (Some Sample.google_request))
    0 5 Fixture.idle
  = endpoint_response Fixture.world Sample.locked Sample.google_request 0 5 Fixture.idle ∧
  ∃ status detail,
    Main.app Fixture.world Sample.locked
      (Main.mkRequest Main.POST "/v1/search" (Some "bearer secret") (Some Sample.google_request))
      0 5 Fixture.idle
    = (Main.Failure status detail, Fixture.idle) ∧
    (status = 403%Z ∨ status = Main.not_authenticated_status Fixture.world).
Proof.
  pose proof (search_route_with_api_key Fixture.world Sample.locked "secret") as H.
  split.
  - apply (H "Bearer secret" Sample.google_request 0%Z 5%Z Fixture.idle eq_refl);
      [discriminate|reflexivity].
  - apply (H "bearer secret" Sample.google_request 0%Z 5%Z Fixture.idle eq_refl);
      discriminate.
Defined.

Lemma search_route_without_api_key_witness :
  Main.app Fixture.world Fixture.environ
    (Main.mkRequest Main.POST "/v1/search" (Some "BEARER anything") (Some Sample.google_request))
    0 5 Fixture.idle
  = endpoint_response Fixture.world Fixture.environ Sample.google_request 0 5 Fixture.idle.
Proof.
  apply (search_route_without_api_key Fixture.world Fixture.environ "BEARER" "anything"
           Sample.google_request 0 5 Fixture.idle); [reflexivity|reflexivity|discriminate].
Defined.

(** ** White space and lines *)

Section DropPatterns.

Variable patterns : list (list ascii).
Hypothesis patterns_nonempty : ∀ p, p ∈ patterns → p ≠ [].

Lemma strip_prefix_Some p : ∀ s rest,
  Text.strip_prefix p s = Some rest → s = p ++ rest.
Proof using Type.
  induction p as [|c p IH]; intros [|d s] rest; simpl; try done.
  - by intros [= <-].
  - by intros [= <-].
  - case_decide; [|done]. subst. intros H. by rewrite (IH _ _ H).
Qed.

Lemma strip_prefix_app p : ∀ s rest more,
  Text.strip_prefix p s = Some rest → Text.strip_prefix p (s ++ more) = Some (rest ++ more).
Proof using Type.
  induction p as [|c p IH]; intros [|d s] rest more; simpl; try done.
  - by intros [= <-].
  - by intros [= <-].
  - case_decide; [|done]. apply IH.
Qed.

Lemma drop_one_Some s rest :
  Text.drop_one patterns s = Some rest → ∃ p, p ∈ patterns ∧ s = p ++ rest.
Proof using Type.
  clear patterns_nonempty. induction patterns as [|q ps IH]; simpl; [done|].
  destruct (Text.strip_prefix q s) as [r|] eqn:E.
  - intros [= <-]. exists q. split; [by left|]. by apply strip_prefix_Some.
  - intros (p & Hp & Hs)%IH. exists p. split; [by right|done].
Qed.

Lemma drop_one_shorter s rest :
  Text.drop_one patterns s = Some rest → length rest < length s.
Proof using patterns_nonempty.
  intros (p & Hp & ->)%drop_one_Some. rewrite length_app.
  specialize (patterns_nonempty p Hp). destruct p; [done|]. simpl. lia.
Qed.

(** A text that starts with no pattern has no prefix that starts with one. *)
Lemma drop_one_None_prefix s more :
  Text.drop_one patterns (s ++ more) = None → Text.drop_one patterns s = None.
Proof using Type.
  clear patterns_nonempty. induction patterns as [|q ps IH]; simpl; [done|].
  destruct (Text.strip_prefix q s) as [r|] eqn:E.
  - by rewrite (strip_prefix_app _ _ _ more E).
  - destruct (Text.strip_prefix q (s ++ more)); [done|]. apply IH.
Qed.

Lemma drop_all_None fuel s :
  Text.drop_one patterns s = None → Text.drop_all patterns fuel s = s.
Proof using Type. intros H. destruct fuel; [done|]. simpl. by rewrite H. Qed.

(** With the length of the text as fuel, what is left starts with no pattern. *)
Lemma drop_all_done fuel : ∀ s,
  length s ≤ fuel → Text.drop_one patterns (Text.drop_all patterns fuel s) = None.
Proof using patterns_nonempty.
  induction fuel as [|fuel IH]; intros s Hlen; simpl.
  - destruct s; [|simpl in Hlen; lia].
    destruct (Text.drop_one patterns []) as [rest|] eqn:E; [|done].
    apply drop_one_shorter in E. simpl in E. lia.
  - destruct (Text.drop_one patterns s) as [rest|] eqn:E; [|done].
    apply IH. apply drop_one_shorter in E. lia.
Qed.

(** What is left is the end of the text. *)
Lemma drop_all_suffix fuel : ∀ s, ∃ dropped, s = dropped ++ Text.drop_all patterns fuel s.
Proof using Type.
  induction fuel as [|fuel IH]; intros s; simpl; [by exists []|].
  destruct (Text.drop_one patterns s) as [rest|] eqn:E; [|by exists []].
  apply drop_one_Some in E as (p & _ & ->).
  destruct (IH rest) as [dropped Hd]. exists (p ++ dropped).
  by rewrite <- (assoc_L (++)), <- Hd.
Qed.

End DropPatterns.

Lemma whitespace_nonempty p : p ∈ Text.whitespace → p ≠ [].
Proof.
  intros Hp ->. revert Hp. unfold Text.whitespace. rewrite list_elem_of_fmap.
  intros (bytes & Hb & Hin). destruct bytes; [|done].
  revert Hin. rewrite !elem_of_cons, elem_of_nil. intros H.
  repeat (destruct H as [H|H]; [discriminate H|]). done.
Qed.

Lemma whitespace_reverse_nonempty p : p ∈ reverse <$> Text.whitespace → p ≠ [].
Proof.
  rewrite list_elem_of_fmap. intros (q & -> & Hq%whitespace_nonempty) Hr.
  apply Hq. by rewrite <- (reverse_involutive q), Hr.
Qed.

Lemma lstrip_bytes_done s : Text.drop_one Text.whitespace (Text.lstrip_bytes s) = None.
Proof. by apply drop_all_done; [apply whitespace_nonempty|]. Qed.

Lemma rstrip_bytes_done s :
  Text.drop_one (reverse <$> Text.whitespace) (reverse (Text.rstrip_bytes s)) = None.
Proof.
  unfold Text.rstrip_bytes. rewrite reverse_involutive.
  apply drop_all_done; [apply whitespace_reverse_nonempty|]. by rewrite length_reverse.
Qed.

Lemma rstrip_bytes_prefix s : ∃ dropped, s = Text.rstrip_bytes s ++ dropped.
Proof.
  unfold Text.rstrip_bytes.
  destruct (drop_all_suffix (reverse <$> Text.whitespace) (length s) (reverse s))
    as [dropped Hd].
  exists (reverse dropped).
  by rewrite <- reverse_app, <- Hd, reverse_involutive.
Qed.

Lemma lstrip_bytes_suffix s : ∃ dropped, s = dropped ++ Text.lstrip_bytes s.
Proof. apply drop_all_suffix. Qed.

Lemma strip_bytes_done s :
  Text.drop_one Text.whitespace (Text.strip_bytes s) = None ∧
  Text.drop_one (reverse <$> Text.whitespace) (reverse (Text.strip_bytes s)) = None.
Proof.
  unfold Text.strip_bytes. split; [|apply rstrip_bytes_done].
  destruct (rstrip_bytes_prefix (Text.lstrip_bytes s)) as [dropped Hd].
  apply (drop_one_None_prefix _ _ dropped). rewrite <- Hd. apply lstrip_bytes_done.
Qed.

Lemma strip_bytes_fixed s :
  Text.drop_one Text.whitespace s = None →
  Text.drop_one (reverse <$> Text.whitespace) (reverse s) = None →
  Text.strip_bytes s = s.
Proof.
  intros Hl Hr. unfold Text.strip_bytes, Text.lstrip_bytes, Text.rstrip_bytes.
  rewrite (drop_all_None _ _ _ Hl), (drop_all_None _ _ _ Hr).
  apply reverse_involutive.
Qed.

Lemma strip_bytes_idemp s : Text.strip_bytes (Text.strip_bytes s) = Text.strip_bytes s.
Proof. apply strip_bytes_fixed; apply strip_bytes_done. Qed.

(** What [strip] leaves is a part of the text. *)
Lemma strip_bytes_infix s : ∃ before after, s = before ++ Text.strip_bytes s ++ after.
Proof.
  unfold Text.strip_bytes.
  destruct (lstrip_bytes_suffix s) as [before Hb].
  destruct (rstrip_bytes_prefix (Text.lstrip_bytes s)) as [after Ha].
  exists before, after. by rewrite <- Ha.
Qed.

Lemma strip_prefix_self p rest : Text.strip_prefix p (p ++ rest) = Some rest.
Proof. induction p as [|c p IH]; simpl; [done|]. by rewrite decide_True. Qed.

Lemma drop_one_None_not_prefix patterns s p :
  Text.drop_one patterns s = None → p ∈ patterns → ¬ p `prefix_of` s.
Proof.
  induction patterns as [|q ps IH]; simpl; [by intros _ ?%elem_of_nil|].
  destruct (Text.strip_prefix q s) eqn:E; [done|].
  intros Hnone [->|Hin]%elem_of_cons; [|by apply IH].
  intros [rest ->]. by rewrite strip_prefix_self in E.
Qed.

(** What [drop_all] drops is a run of patterns. *)
Lemma drop_all_dropped patterns fuel : ∀ s,
  ∃ run, Forall (λ p, p ∈ patterns) run ∧ s = concat run ++ Text.drop_all patterns fuel s.
Proof.
  induction fuel as [|fuel IH]; intros s; simpl; [by exists []|].
  destruct (Text.drop_one patterns s) as [rest|] eqn:E; [|by exists []].
  apply drop_one_Some in E as (p & Hp & ->).
  destruct (IH rest) as (run & Hrun & Hd). exists (p :: run).
  split; [by constructor|]. simpl. by rewrite <- (assoc_L (++)), <- Hd.
Qed.

Lemma strip_bytes_dropped s :
  ∃ before after,
    Forall (λ p, p ∈ Text.whitespace) before ∧ Forall (λ p, p ∈ Text.whitespace) after ∧
    s = concat before ++ Text.strip_bytes s ++ concat after.
Proof.
  unfold Text.strip_bytes.
  destruct (drop_all_dropped Text.whitespace (length s) s) as (before & Hb & Hs).
  fold (Text.lstrip_bytes s) in Hs.
  set (x := Text.lstrip_bytes s) in *.
  destruct (drop_all_dropped (reverse <$> Text.whitespace) (length x) (reverse x))
    as (run & Hrun & Hx).
  exists before, (reverse (reverse <$> run)). split; [done|]. split.
  - apply Forall_reverse, Forall_fmap. eapply Forall_impl; [exact Hrun|].
    intros p (q & -> & Hq)%list_elem_of_fmap. simpl. by rewrite reverse_involutive.
  - rewrite Hs at 1. f_equal. unfold Text.rstrip_bytes.
    apply (inj reverse). rewrite Hx at 1. rewrite reverse_app, reverse_involutive.
    f_equal. clear. induction run as [|p run IH]; [done|].
    rewrite fmap_cons, reverse_cons, concat_app, reverse_app. simpl.
    by rewrite app_nil_r, reverse_involutive, IH.
Qed.

(** [strip] takes away a run of white space at the start and one at the end,
    and nothing else; what it leaves neither starts nor ends with white space,
    and stripping it again changes nothing. *)
Theorem strip_removes_surrounding_whitespace s :
  (∃ before after,
     Forall (λ p, p ∈ Text.whitespace) before ∧ Forall (λ p, p ∈ Text.whitespace) after ∧
     list_ascii_of_string s
     = concat before ++ list_ascii_of_string (Text.strip s) ++ concat after) ∧
  (∀ p, p ∈ Text.whitespace →
     ¬ p `prefix_of` list_ascii_of_string (Text.strip s) ∧
     ¬ p `suffix_of` list_ascii_of_string (Text.strip s)) ∧
  Text.strip (Text.strip s) = Text.strip s.
Proof.
  unfold Text.strip. rewrite !list_ascii_of_string_of_list_ascii.
  split; [apply strip_bytes_dropped|]. split; [|by rewrite strip_bytes_idemp].
  intros p Hp. destruct (strip_bytes_done (list_ascii_of_string s)) as [Hl Hr]. split.
  - by apply (drop_one_None_not_prefix _ _ _ Hl).
  - intros Hsuf. apply (drop_one_None_not_prefix _ _ (reverse p) Hr).
    + apply list_elem_of_fmap. eauto.
    + destruct Hsuf as [k ->]. rewrite reverse_app. by exists (reverse k).
Qed.

Lemma split_bytes_cons c text :
  Text.split_bytes (c :: text)
  = if decide (c = Text.newline) then [] :: Text.split_bytes text
    else match Text.split_bytes text with
         | line :: lines => (c :: line) :: lines
         | [] => [[c]]
         end.
Proof. done. Qed.

Lemma split_bytes_no_newline line :
  Text.newline ∉ line → Text.split_bytes line = [line].
Proof.
  induction line as [|c line IH]; [done|].
  rewrite not_elem_of_cons. intros [Hc Hl]. rewrite split_bytes_cons.
  destruct (decide (c = Text.newline)); [done|]. by rewrite (IH Hl).
Qed.

Lemma split_bytes_app line text :
  Text.newline ∉ line →
  Text.split_bytes (line ++ Text.newline :: text) = line :: Text.split_bytes text.
Proof.
  induction line as [|c line IH].
  - intros _. rewrite app_nil_l, split_bytes_cons.
    by destruct (decide (Text.newline = Text.newline)).
  - rewrite not_elem_of_cons. intros [Hc Hl].
    rewrite <- app_comm_cons, split_bytes_cons.
    destruct (decide (c = Text.newline)); [done|]. by rewrite (IH Hl).
Qed.

Lemma split_bytes_lines text :
  Forall (λ line, Text.newline ∉ line) (Text.split_bytes text).
Proof.
  induction text as [|c text IH].
  - repeat constructor. by intros ?%elem_of_nil.
  - rewrite split_bytes_cons. destruct (decide (c = Text.newline)).
    + constructor; [by intros ?%elem_of_nil|done].
    + destruct (Text.split_bytes text) as [|line lines].
      * repeat constructor. by intros [?|?%elem_of_nil]%elem_of_cons.
      * inversion_clear IH. constructor; [|done].
        by intros [?|?]%elem_of_cons.
Qed.

Lemma split_join_bytes lines :
  lines ≠ [] → Forall (λ line, Text.newline ∉ line) lines →
  Text.split_bytes (Text.join_bytes lines) = lines.
Proof.
  induction lines as [|line lines IH]; [done|]. intros _ Hall.
  inversion_clear Hall as [|?? Hline Hlines].
  destruct lines as [|line' lines].
  - by apply split_bytes_no_newline.
  - change (Text.join_bytes (line :: line' :: lines))
      with (line ++ Text.newline :: Text.join_bytes (line' :: lines)).
    rewrite (split_bytes_app _ _ Hline). f_equal. by apply IH.
Qed.

Lemma join_split_bytes text : Text.join_bytes (Text.split_bytes text) = text.
Proof.
  induction text as [|c text IH]; [done|]. rewrite split_bytes_cons.
  destruct (Text.split_bytes text) as [|line lines] eqn:E.
  - simpl in IH. subst. by destruct (decide (c = Text.newline)) as [->|].
  - destruct (decide (c = Text.newline)) as [->|].
    + change (Text.join_bytes ([] :: line :: lines))
        with ([] ++ Text.newline :: Text.join_bytes (line :: lines)).
      by rewrite IH.
    + destruct lines as [|line' lines].
      * simpl in *. by rewrite IH.
      * change (Text.join_bytes ((c :: line) :: line' :: lines))
          with (c :: Text.join_bytes (line :: line' :: lines)).
        by rewrite IH.
Qed.

Lemma strip_bytes_no_newline line :
  Text.newline ∉ line → Text.newline ∉ Text.strip_bytes line.
Proof.
  intros Hn Hin. apply Hn.
  destruct (strip_bytes_infix line) as (before & after & Hl).
  rewrite Hl, !elem_of_app. auto.
Qed.

(** The lines that [_clean_text] keeps: none is empty, none has white space at
    its start or its end, none holds a line feed. *)
Lemma stripped_lines_spec text :
  Forall (λ line, line ≠ [] ∧ Text.strip_bytes line = line ∧ Text.newline ∉ line)
    (Text.stripped_lines text).
Proof.
  unfold Text.stripped_lines. apply Forall_forall. intros line.
  rewrite list_elem_of_filter, list_elem_of_fmap. intros [Hne (raw & -> & Hraw)].
  split; [done|]. split; [apply strip_bytes_idemp|].
  apply strip_bytes_no_newline.
  by apply (proj1 (Forall_forall _ _) (split_bytes_lines text)).
Qed.

Lemma stripped_lines_join text :
  Text.stripped_lines (Text.join_bytes (Text.stripped_lines text))
  = Text.stripped_lines text.
Proof.
  pose proof (stripped_lines_spec text) as Hspec.
  destruct (Text.stripped_lines text) as [|line lines] eqn:E; [done|].
  unfold Text.stripped_lines at 1. rewrite split_join_bytes.
  - clear E. induction Hspec as [|l ls (Hne & Hfix & _) _ IH]; [done|].
    rewrite fmap_cons, Hfix, filter_cons_True by done. by rewrite IH.
  - done.
  - eapply Forall_impl; [exact Hspec|]. by intros l (_ & _ & ?).
Qed.

(** The last line of [_clean_text]: the text it returns has no empty line and no
    line with white space at its start or its end, and cleaning it again gives
    the same text. *)
Theorem clean_lines_stripped text :
  (Text.clean_lines text ≠ "" →
   Forall (λ line, line ≠ [] ∧ Text.strip_bytes line = line)
     (Text.split_bytes (list_ascii_of_string (Text.clean_lines text)))) ∧
  Text.clean_lines (Text.clean_lines text) = Text.clean_lines text.
Proof.
  unfold Text.clean_lines. rewrite !list_ascii_of_string_of_list_ascii. split.
  - intros Hne. pose proof (stripped_lines_spec (list_ascii_of_string text)) as Hspec.
    rewrite split_join_bytes.
    + eapply Forall_impl; [exact Hspec|]. by intros l (? & ? & _).
    + by intros E; rewrite E in Hne.
    + eapply Forall_impl; [exact Hspec|]. by intros l (_ & _ & ?).
  - by rewrite stripped_lines_join.
Qed.

Lemma clean_lines_stripped_witness :
  Forall (λ line, line ≠ [] ∧ Text.strip_bytes line = line)
    (Text.split_bytes (list_ascii_of_string (Text.clean_lines (" a " +:+ String "010" " ")))).
Proof.
  apply (proj1 (clean_lines_stripped (" a " +:+ String "010" " "))). discriminate.
Defined.

(** ** search/fetcher.py *)

(** The text [_clean_text] returns has no empty line and no line with white
    space at its start or its end; cleaning it again would change nothing. *)
Theorem clean_text_lines lib html cleaned :
  Fetcher._clean_text lib html = Return cleaned →
  (cleaned ≠ "" →
   Forall (λ line, line ≠ [] ∧ Text.strip_bytes line = line)
     (Text.split_bytes (list_ascii_of_string cleaned))) ∧
  Text.clean_lines cleaned = cleaned.
Proof.
  unfold Fetcher._clean_text. destruct (Fetcher.soup_text lib html) as [text|]; [|done].
  intros [= <-]. apply clean_lines_stripped.
Qed.

(** No exception of the request, of the rendering or of the cleaning leaves
    [fetch], in either fetcher: it returns a [FetchedContent] for the url it
    was given, and one whose [error] is not empty has no content and the status
    code 0. *)
Theorem fetch_never_raises lib simple html address :
  (∃ fetched, Fetcher.simple_fetch lib simple address = Return fetched ∧
     url fetched = address ∧
     (error fetched ≠ "" →
      raw_content fetched = "" ∧ clean_text fetched = "" ∧ status_code fetched = 0%Z)) ∧
  (∃ fetched, Fetcher.html_fetch lib html address = Return fetched ∧
     url fetched = address ∧
     (error fetched ≠ "" →
      raw_content fetched = "" ∧ clean_text fetched = "" ∧ status_code fetched = 0%Z)).
Proof.
  assert (Hok : ∀ raw cleaned status,
    ∃ fetched, Return (mkFetchedContent address raw cleaned status "") = Return fetched ∧
      url fetched = address ∧
      (error fetched ≠ "" →
       raw_content fetched = "" ∧ clean_text fetched = "" ∧ status_code fetched = 0%Z)).
  { intros. eexists. split; [done|]. split; [done|]. simpl. by intros []. }
  assert (Hfail : ∀ message,
    ∃ fetched, Return (mkFetchedContent address "" "" 0 message) = Return fetched ∧
      url fetched = address ∧
      (error fetched ≠ "" →
       raw_content fetched = "" ∧ clean_text fetched = "" ∧ status_code fetched = 0%Z)).
  { intros. eexists. split; [done|]. by split. }
  unfold Fetcher.simple_fetch, Fetcher.html_fetch. split.
  - destruct (Fetcher.requests_get lib _ _ _) as [response|]; [|done].
    by destruct (Fetcher._clean_text lib _).
  - destruct (Fetcher.session_get lib _ _) as [response|]; [|done].
    by destruct (if Fetcher.render html then _ else _).
Qed.

(** The task of a result reads [clean_text] of what [fetch] returns and never
    [error]: when the request of [RequestsHtmlFetcher] fails, the completion is
    still asked, about an empty text, and its reply becomes the [content]. *)
Theorem enrichment_after_failed_fetch lib html llm_cli r o st e c reply others :
  heap st !! r = Some o →
  Fetcher.session_get lib (link o) (Fetcher.html_timeout html) = Raise e →
  llm_cli [ mkMessage "system" system_prompt; mkMessage "user" "" ] = Return c →
  choices c = reply :: others →
  let run := _fetch_content_by_search_result (Fetcher.html_fetch lib html) llm_cli r st in
  outcome run = Return r ∧
  heap (final run) = <[r := set_content reply o]> (heap st).
Proof.
  intros Ho Hget Hc Hch run.
  destruct (task_stores_first_choice (Fetcher.html_fetch lib html) llm_cli
              r o st (mkFetchedContent (link o) "" "" 0 (exception_str e)) c reply others)
    as (H1 & H2 & _); try done.
  unfold Fetcher.html_fetch. by rewrite Hget.
Qed.

(** ** search/search.py: the adapters *)

Lemma Outcome_bind_Return {A B} (f : A → Outcome B) (o : Outcome A) b :
  o ≫= f = Return b → ∃ a, o = Return a ∧ f a = Return b.
Proof. destruct o as [a|]; [|done]. intros H. by exists a. Qed.

Lemma new_result_fresh t l s source r :
  Adapters.new_result t l s source = Return r → fresh_from source r.
Proof.
  unfold Adapters.new_result. destruct t, l, s; try done. by intros [= <-].
Qed.

Lemma for_each_Forall f (P : SearchResult → Prop) :
  (∀ item r, f item = Return r → P r) →
  ∀ items rs, Adapters.for_each f items = Return rs →
    Forall P rs ∧ length rs = length items.
Proof.
  intros Hf. induction items as [|item items IH]; intros rs; simpl.
  - by intros [= <-].
  - intros (r & Hr & (rs' & Hrs & [= <-])%Outcome_bind_Return)%Outcome_bind_Return.
    destruct (IH _ Hrs) as [? ?]. split; [constructor; eauto|]. simpl. by f_equal.
Qed.

Lemma for_each_in_Forall f (P : SearchResult → Prop) :
  (∀ item r, f item = Return r → P r) →
  ∀ value rs, Adapters.for_each_in f value = Return rs → Forall P rs.
Proof.
  intros Hf value rs. unfold Adapters.for_each_in.
  destruct value as [| | |text|items|fields]; try done.
  - destruct text; [by intros [= <-]|done].
  - intros H. by apply (for_each_Forall f P Hf items).
  - destruct fields; [by intros [= <-]|done].
Qed.

Lemma google_item_fresh item r :
  Adapters.Google._parse_item item = Return r → fresh_from "Google" r.
Proof.
  unfold Adapters.Google._parse_item.
  intros (t & _ & (l & _ & (s & _ & H)%Outcome_bind_Return)%Outcome_bind_Return)
    %Outcome_bind_Return.
  by apply new_result_fresh in H.
Qed.

Lemma bing_item_fresh item r :
  Adapters.Bing._parse_item item = Return r → fresh_from "Bing" r.
Proof.
  unfold Adapters.Bing._parse_item.
  intros (t & _ & (l & _ & (s & _ & H)%Outcome_bind_Return)%Outcome_bind_Return)
    %Outcome_bind_Return.
  by apply new_result_fresh in H.
Qed.

Lemma duckduckgo_item_fresh item r :
  Adapters.DuckDuckGo._parse_results item = Return r → fresh_from "DuckDuckGo" r.
Proof.
  unfold Adapters.DuckDuckGo._parse_results.
  intros (t & _ & (t' & _ & (l & _ & (s & _ & (s' & _ & H)
    %Outcome_bind_Return)%Outcome_bind_Return)%Outcome_bind_Return)
    %Outcome_bind_Return)%Outcome_bind_Return.
  by apply new_result_fresh in H.
Qed.

(** Every result that an adapter returns names its provider as [source_engine]
    and has neither [content] nor [index]. *)
Theorem adapter_results_fresh lib config engine source query kw rs :
  (engine, source) ∈ [ (Adapters.Google.search lib config, "Google");
                        (Adapters.Bing.search lib config, "Bing");
                        (Adapters.DuckDuckGo.search lib config, "DuckDuckGo") ] →
  engine query kw = Return rs →
  Forall (fresh_from source) rs.
Proof.
  rewrite !elem_of_cons, elem_of_nil.
  intros [[= -> ->]|[[= -> ->]|[[= -> ->]|[]]]].
  - unfold Adapters.Google.search, Adapters.Google._parse_results.
    intros (response & _ & (_ & _ & (data & _ & (items & _ & H)
      %Outcome_bind_Return)%Outcome_bind_Return)%Outcome_bind_Return)%Outcome_bind_Return.
    by apply (for_each_in_Forall _ _ google_item_fresh) in H.
  - unfold Adapters.Bing.search, Adapters.Bing._parse_results.
    intros (response & _ & (_ & _ & (data & _ & (pages & _ & (value & _ & H)
      %Outcome_bind_Return)%Outcome_bind_Return)%Outcome_bind_Return)
      %Outcome_bind_Return)%Outcome_bind_Return.
    by apply (for_each_in_Forall _ _ bing_item_fresh) in H.
  - unfold Adapters.DuckDuckGo.search.
    intros (found & _ & H)%Outcome_bind_Return.
    by apply (for_each_Forall _ _ duckduckgo_item_fresh) in H as [? _].
Qed.

Lemma describes_result k1 k2 k3 source item r fields :
  item = Main.JObj fields →
  dict_get k1 fields = Some (Main.JStr (title r)) →
  dict_get k2 fields = Some (Main.JStr (link r)) →
  dict_get k3 fields = Some (Main.JStr (snippet r)) →
  content r = None → index r = None → source_engine r = source →
  (t ← Adapters.subscript item k1;
   l ← Adapters.subscript item k2;
   s ← Adapters.subscript item k3;
   Adapters.new_result t l s source) = Return r.
Proof.
  intros -> H1 H2 H3 Hc Hi Hs. unfold Adapters.subscript, mbind, Outcome_bind.
  rewrite H1, H2, H3. simpl. destruct r; simpl in *. by subst.
Qed.

Lemma for_each_describes f k1 k2 k3 source :
  (∀ item r, describes k1 k2 k3 source item r → f item = Return r) →
  ∀ items rs, Forall2 (describes k1 k2 k3 source) items rs →
    Adapters.for_each f items = Return rs.
Proof.
  intros Hf items rs. induction 1 as [|item r items rs Hd _ IH]; [done|].
  simpl. rewrite (Hf _ _ Hd). simpl. by rewrite IH.
Qed.

(** [GoogleSearch._parse_results]: an answer without [items] gives no result and
    no error; an answer whose [items] are objects with a title, a link and a
    snippet gives one result for each item, in the order of the items. *)
Theorem google_parse_results fields :
  (dict_get "items" fields = None →
   Adapters.Google._parse_results (Main.JObj fields) = Return []) ∧
  (∀ items rs,
     dict_get "items" fields = Some (Main.JArr items) →
     Forall2 (describes "title" "link" "snippet" "Google") items rs →
     Adapters.Google._parse_results (Main.JObj fields) = Return rs).
Proof.
  unfold Adapters.Google._parse_results, Adapters.get. split.
  - by intros ->.
  - intros items rs -> Hall. simpl.
    apply (for_each_describes _ "title" "link" "snippet" "Google"); [|done].
    intros item r (fs & ? & ? & ? & ? & ? & ? & ?).
    by apply (describes_result "title" "link" "snippet" "Google" item r fs).
Qed.

(** [BingSearch._parse_results]: an answer without [webPages], or whose
    [webPages] has no [value], gives no result and no error; a [value] of objects
    with a name, a url and a snippet gives one result for each, in their order. *)
Theorem bing_parse_results fields :
  (dict_get "webPages" fields = None →
   Adapters.Bing._parse_results (Main.JObj fields) = Return []) ∧
  (∀ pages,
     dict_get "webPages" fields = Some (Main.JObj pages) →
     dict_get "value" pages = None →
     Adapters.Bing._parse_results (Main.JObj fields) = Return []) ∧
  (∀ pages items rs,
     dict_get "webPages" fields = Some (Main.JObj pages) →
     dict_get "value" pages = Some (Main.JArr items) →
     Forall2 (describes "name" "url" "snippet" "Bing") items rs →
     Adapters.Bing._parse_results (Main.JObj fields) = Return rs).
Proof.
  unfold Adapters.Bing._parse_results, Adapters.get. split; [|split].
  - by intros ->.
  - intros pages -> Hv. simpl. by rewrite Hv.
  - intros pages items rs -> Hv Hall. simpl. rewrite Hv. simpl.
    apply (for_each_describes _ "name" "url" "snippet" "Bing"); [|done].
    intros item r (fs & ? & ? & ? & ? & ? & ? & ?).
    by apply (describes_result "name" "url" "snippet" "Bing" item r fs).
Qed.

Lemma with_params_other key base config :
  key ∉ (params config).*1 →
  dict_get key (Adapters.with_params base config) = dict_get key base.
Proof.
  unfold Adapters.with_params. generalize (params config). intros ps. revert base.
  induction ps as [|[k v] ps IH]; intros base Hk; [done|].
  rewrite fmap_cons, not_elem_of_cons in Hk. destruct Hk as [Hne Hk].
  simpl. rewrite (IH _ Hk), dict_get_dict_set. by rewrite decide_False.
Qed.

(** The parameters of the request to Google: a [max_results] that is not 0 is sent
    as [num], also over a [num] of the configuration, while a [max_results] of 0
    is taken as none and sends nothing; the query is sent as [q] and the key as
    [key] unless the configuration has parameters of these names. *)
Theorem google_request_params config query kw :
  (∀ max_results, kw_max_results kw = Some max_results → max_results ≠ 0%Z →
     dict_get "num" (Adapters.Google.request_params config query kw)
     = Some (Adapters.PInt max_results)) ∧
  (kw_max_results kw = Some 0%Z ∨ kw_max_results kw = None →
     Adapters.Google.request_params config query kw
     = Adapters.with_params [("q", Adapters.PStr query);
                             ("key", Adapters.PStr (api_key config))] config) ∧
  ("q" ∉ (params config).*1 →
     dict_get "q" (Adapters.Google.request_params config query kw)
     = Some (Adapters.PStr query)) ∧
  ("key" ∉ (params config).*1 →
     dict_get "key" (Adapters.Google.request_params config query kw)
     = Some (Adapters.PStr (api_key config))).
Proof.
  unfold Adapters.Google.request_params, Adapters.with_max_results.
  split; [|split; [|split]].
  - intros m -> Hm. rewrite decide_False by done. rewrite dict_get_dict_set.
    by rewrite decide_True.
  - by intros [->| ->].
  - intros Hq. destruct (kw_max_results kw) as [m|]; [destruct (decide (m = 0%Z))|];
      rewrite ?dict_get_dict_set, ?decide_False by done; by rewrite with_params_other.
  - intros Hq. destruct (kw_max_results kw) as [m|]; [destruct (decide (m = 0%Z))|];
      rewrite ?dict_get_dict_set, ?decide_False by done; by rewrite with_params_other.
Qed.

(** [DuckDuckGoSearch._parse_results]: a key that the item lacks counts as an
    empty string; the title and the snippet are stripped, so that neither has
    white space at its start or its end, and the link is taken as it is. *)
Theorem duckduckgo_parse_results fields t l s :
  default (Main.JStr "") (dict_get "title" fields) = Main.JStr t →
  default (Main.JStr "") (dict_get "href" fields) = Main.JStr l →
  default (Main.JStr "") (dict_get "body" fields) = Main.JStr s →
  ∃ r,
    Adapters.DuckDuckGo._parse_results (Main.JObj fields) = Return r ∧
    r = mkSearchResult (Text.strip t) l (Text.strip s) None "DuckDuckGo" None ∧
    Text.strip (title r) = title r ∧ Text.strip (snippet r) = snippet r.
Proof.
  intros Ht Hl Hs. eexists. split; [|split; [done|]].
  - unfold Adapters.DuckDuckGo._parse_results, Adapters.get, mbind, Outcome_bind.
    by rewrite Ht, Hl, Hs.
  - simpl. split; apply strip_removes_surrounding_whitespace.
Qed.

Lemma numbered_Forall (P Q : SearchResult → Prop) l :
  (∀ i r, P r → Q (set_index (Some (Z.of_nat i)) r)) →
  Forall P l → Forall Q (numbered l).
Proof.
  intros HPQ Hl. apply Forall_lookup. intros i r.
  rewrite numbered_lookup. destruct (l !! i) as [r0|] eqn:E; [|done].
  intros [= <-]. apply HPQ. by apply (proj1 (Forall_lookup _ _) Hl i).
Qed.

(** With adapters of the three providers in the registry and no [fetch_content],
    every result that [search] returns has its index, names one of the three
    providers and has no [content]. *)
Theorem search_over_adapters lib fetcher llm_cli query kw st :
  get_fetch_content kw = false →
  Forall (λ item, ∃ config source,
            (item.2, source) ∈ [ (Adapters.Google.search lib config, "Google");
                                  (Adapters.Bing.search lib config, "Bing");
                                  (Adapters.DuckDuckGo.search lib config, "DuckDuckGo") ])
    (engines st) →
  ∃ rs,
    outcome (search fetcher llm_cli query kw st) = Return rs ∧
    Forall (λ o, ∃ r, o = Some r ∧ content r = None ∧ is_Some (index r) ∧
                      source_engine r ∈ ["Google"; "Bing"; "DuckDuckGo"])
      (deref (heap (final (search fetcher llm_cli query kw st))) rs).
Proof.
  intros Hkw Hall. rewrite search_run. unfold outcome, final. simpl.
  eexists. split; [done|]. rewrite deref_alloc. apply Forall_fmap.
  induction Hall as [|item items (config & source & Hitem) _ IH]; [constructor|].
  rewrite bind_cons. apply Forall_app. split; [|done].
  unfold contribution. rewrite Hkw.
  destruct (item.2 query kw) as [l|] eqn:E; [|constructor].
  apply (numbered_Forall (fresh_from source)).
  - intros i r (Hs & Hc & _). simpl. eexists. split; [done|].
    split; [done|]. split; [by eexists|].
    change (source_engine r ∈ ["Google"; "Bing"; "DuckDuckGo"]).
    rewrite Hs. revert Hitem. rewrite !elem_of_cons, elem_of_nil.
    intros [[= _ ->]|[[= _ ->]|[[= _ ->]|[]]]]; auto.
  - by apply (adapter_results_fresh lib config item.2 source query kw).
Qed.

(** ** Examples *)

Lemma clean_text_lines_witness :
  let html := " a " +:+ String "010" " " in
  (Text.clean_lines html ≠ "" →
   Forall (λ line, line ≠ [] ∧ Text.strip_bytes line = line)
     (Text.split_bytes (list_ascii_of_string (Text.clean_lines html)))) ∧
  Text.clean_lines (Text.clean_lines html) = Text.clean_lines html.
Proof.
  intros html.
  exact (clean_text_lines SampleLibrary.offline html (Text.clean_lines html) eq_refl).
Defined.

Lemma enrichment_after_failed_fetch_witness :
  let o := Fixture.hit "a" "https://a.example/" "Google" in
  let st := mkSt [] [o] in
  let html := Fetcher.mkRequestsHtmlFetcher false 10 in
  let run := _fetch_content_by_search_result
               (Fetcher.html_fetch SampleLibrary.offline html) Fixture.llm_cli 0 st in
  outcome run = Return 0 ∧
  heap (final run) = [set_content (Some "summary of ") o].
Proof.
  intros o st html.
  exact (enrichment_after_failed_fetch SampleLibrary.offline html Fixture.llm_cli 0 o st
    (OtherException "ConnectionError")
    (mkChatCompletion [Some "summary of "]) (Some "summary of ") []
    eq_refl eq_refl eq_refl eq_refl).
Defined.

Lemma google_parse_results_witness :
  Adapters.Google._parse_results SampleLibrary.google_answer
  = Return [SampleLibrary.result_of_rocq "Google"].
Proof.
  apply (proj2 (google_parse_results
           [ ("kind", Main.JStr "customsearch#search");
             ("items", Main.JArr [SampleLibrary.rocq]) ]) [SampleLibrary.rocq]).
  - reflexivity.
  - constructor; [|constructor].
    eexists. split; [reflexivity|]. repeat split; reflexivity.
Defined.

Lemma bing_parse_results_witness :
  Adapters.Bing._parse_results SampleLibrary.bing_answer
  = Return [SampleLibrary.result_of_rocq "Bing"].
Proof.
  eapply (proj2 (proj2 (bing_parse_results _))).
  - reflexivity.
  - reflexivity.
  - constructor; [|constructor].
    eexists. split; [reflexivity|]. repeat split; reflexivity.
Defined.

Lemma google_request_params_witness :
  let sent := Adapters.Google.request_params SampleLibrary.google_config "rocq" Fixture.plain in
  dict_get "num" sent = Some (Adapters.PInt 2) ∧
  dict_get "q" sent = Some (Adapters.PStr "rocq") ∧
  dict_get "key" sent = Some (Adapters.PStr "google-key").
Proof.
  intros sent.
  pose proof (google_request_params SampleLibrary.google_config "rocq" Fixture.plain)
    as (Hnum & _ & Hq & Hkey).
  split; [|split].
  - apply (Hnum 2%Z); [reflexivity|discriminate].
  - apply Hq. simpl. rewrite list_elem_of_singleton. discriminate.
  - apply Hkey. simpl. rewrite list_elem_of_singleton. discriminate.
Defined.

Lemma duckduckgo_parse_results_witness :
  ∃ r,
    Adapters.DuckDuckGo._parse_results (Main.JObj SampleLibrary.duckduckgo_item) = Return r ∧
    r = mkSearchResult (Text.strip " Rocq ") "https://rocq-prover.org/" (Text.strip "")
          None "DuckDuckGo" None ∧
    Text.strip (title r) = title r ∧ Text.strip (snippet r) = snippet r.
Proof.
  exact (duckduckgo_parse_results SampleLibrary.duckduckgo_item
           " Rocq " "https://rocq-prover.org/" "" eq_refl eq_refl eq_refl).
Defined.

Lemma search_over_adapters_witness :
  let st := add_engine "duckduckgo"
              (Adapters.DuckDuckGo.search SampleLibrary.adapters SampleLibrary.google_config)
              (add_engine "google"
                 (Adapters.Google.search SampleLibrary.adapters SampleLibrary.google_config)
                 init) in
  let run := search Fixture.fetcher Fixture.llm_cli "rocq" Fixture.plain st in
  ∃ rs,
    outcome run = Return rs ∧
    Forall (λ o, ∃ r, o = Some r ∧ content r = None ∧ is_Some (index r) ∧
                      source_engine r ∈ ["Google"; "Bing"; "DuckDuckGo"])
      (deref (heap (final run)) rs).
Proof.
  intros st run.
  apply (search_over_adapters SampleLibrary.adapters Fixture.fetcher Fixture.llm_cli
           "rocq" Fixture.plain st); [reflexivity|].
  apply Forall_cons. split; [|apply Forall_cons; split; [|apply Forall_nil; exact I]].
  - exists SampleLibrary.google_config, "Google". rewrite !elem_of_cons. by left.
  - exists SampleLibrary.google_config, "DuckDuckGo". rewrite !elem_of_cons. right. right. by left.
Defined.
